(** * The DDPG agent of [src/src/agent.py]

    A shallow embedding of class [DDPG] (constructor, [act], [store],
    [reset], [polyak_update], [update], [save], [load]) together with the
    part of PyTorch's object model the class relies on: tensors with
    broadcasting, [Parameter] objects living in a store and shared by
    reference, modules, the Adam optimizer, autograd leaves and [detach],
    and a file system for [torch.save] / [torch.load].  The training
    loop of [main_test.py] is embedded over an arbitrary environment.

    Conventions.
    - Floating-point numbers are idealised as rationals ([Q]); numeric
      equality is [Qeq] ([==]), storage equality is Leibniz equality.
    - A tensor value is a vector or a matrix (a list of rows); a
      [Parameter] keeps its entries flattened, which is all that the
      element-wise operations of the agent observe.
    - Randomness is explicit: [act] takes the standard-normal draw of
      [Normal.sample], [update] takes the index draws of [ExpReplay.sample].
    - The agent receives its networks from the caller: a module is an
      opaque [forward] function of its parameter values, applied row by
      row to a batch.  Gradients and the Adam update formula are section
      variables: every theorem holds for any differentiation operator and
      any update rule.
    - A transition is what the data model and the training script store:
      state, action and next state are vectors of fixed dimensions, the
      reward is a scalar and [done] a boolean. *)

From Stdlib Require Import QArith Qminmax ZArith Lia.
From stdpp Require Import gmap strings list.

Local Open Scope Q_scope.

(** ** Python exceptions and results *)

Inductive exn := ValueError | TypeError | KeyError | RuntimeError | FileNotFoundError.

Inductive result (A : Type) :=
  | Return (x : A)
  | Raise (e : exn).
Arguments Return {A} x.
Arguments Raise {A} e.

Definition Qltb (x y : Q) : bool := negb (Qle_bool y x).

(** ** Tensor values and broadcasting *)

Inductive tensor :=
  | Vec (v : list Q)
  | Mat (m : list (list Q)).

(** Broadcasting along one dimension: sizes must agree, or one of them is 1. *)
Definition broadcast_row (f : Q -> Q -> Q) (u v : list Q) : option (list Q) :=
  if decide (length u = length v) then Some (zip_with f u v)
  else match u, v with
       | [a], _ => Some (f a <$> v)
       | _, [b] => Some ((fun x => f x b) <$> u)
       | _, _ => None
       end.

(** Binary element-wise operation with broadcasting: shapes are aligned on
    the trailing dimension, so a vector of length [n] meets a matrix as a
    [1 x n] row. *)
Definition broadcast (f : Q -> Q -> Q) (a b : tensor) : option tensor :=
  match a, b with
  | Vec u, Vec v => Vec <$> broadcast_row f u v
  | Vec u, Mat m => Mat <$> mapM (broadcast_row f u) m
  | Mat m, Vec v => Mat <$> mapM (fun r => broadcast_row f r v) m
  | Mat m1, Mat m2 =>
      if decide (length m1 = length m2)
      then Mat <$> mapM (fun rr => broadcast_row f rr.1 rr.2) (zip m1 m2)
      else match m1, m2 with
           | [r1], _ => Mat <$> mapM (broadcast_row f r1) m2
           | _, [r2] => Mat <$> mapM (fun r => broadcast_row f r r2) m1
           | _, _ => None
           end
  end.

Definition tmap (f : Q -> Q) (t : tensor) : tensor :=
  match t with
  | Vec v => Vec (f <$> v)
  | Mat m => Mat ((fun r : list Q => f <$> r) <$> m)
  end.

(** [torch.hstack]: 1-D tensors are concatenated, 2-D tensors are
    concatenated row by row and need the same number of rows. *)
Definition hstack (a b : tensor) : option tensor :=
  match a, b with
  | Vec u, Vec v => Some (Vec (u ++ v))
  | Mat m1, Mat m2 =>
      if decide (length m1 = length m2) then Some (Mat (zip_with app m1 m2))
      else None
  | _, _ => None
  end.

Definition entries (t : tensor) : list Q :=
  match t with
  | Vec v => v
  | Mat m => concat m
  end.

Definition Qsum (l : list Q) : Q := foldr Qplus 0 l.

(** [.mean()] over all entries (of an empty tensor: 0, where torch has NaN). *)
Definition mean (t : tensor) : Q :=
  Qsum (entries t) / inject_Z (Z.of_nat (length (entries t))).

(** [torch.clip(x, lo, hi)] on one entry. *)
Definition clip (lo hi x : Q) : Q := Qmin (Qmax x lo) hi.

(** ** The store of parameter objects ([torch.nn.Parameter]) *)

(** A reference to a parameter object is its index in the store. *)
Abbreviation loc := nat (only parsing).

Record Param := { data : list Q; grad : option (list Q) }.

Abbreviation heap := (list Param) (only parsing).

Definition set_data (v : list Q) (p : Param) : Param :=
  {| data := v; grad := grad p |}.

Definition set_grad (g : option (list Q)) (p : Param) : Param :=
  {| data := data p; grad := g |}.

(** [p.grad] accumulates: the first gradient is stored, later ones are added. *)
Definition accumulate (g : list Q) (p : Param) : Param :=
  set_grad (Some (match grad p with
                  | None => g
                  | Some g0 => zip_with Qplus g0 g
                  end)) p.

Definition values (h : heap) (ls : list loc) : list (list Q) :=
  (fun l => from_option data [] (h !! l)) <$> ls.

(** ** Modules *)

(** An [nn.Module]: the architecture is the function [forward] of the
    parameter values and one input row; [parameters] lists the stored
    [Parameter] objects, each once. *)
Record Module := {
  forward : list (list Q) -> list Q -> list Q;
  parameters : list loc
}.

Definition apply_module (m : Module) (h : heap) (x : tensor) : tensor :=
  match x with
  | Vec v => Vec (forward m (values h (parameters m)) v)
  | Mat rows => Mat (forward m (values h (parameters m)) <$> rows)
  end.

(** [copy.deepcopy] of a module: every [Parameter] is cloned into a fresh
    object (the clone has no gradient yet). *)
Definition deepcopy (m : Module) (h : heap) : Module * heap :=
  ({| forward := forward m;
      parameters := seq (length h) (length (parameters m)) |},
   h ++ ((fun v => {| data := v; grad := None |}) <$> values h (parameters m))).

(** ** Tensors in the autograd graph *)

(** A tensor built during a forward pass: [fn] gives its value as a
    function of the stored parameter values, [leaves] are the parameter
    objects that [backward] reaches from it.  A scalar (0-dim) tensor is
    a vector of length one. *)
Record gtensor := { fn : heap -> option tensor; leaves : list loc }.

(** [torch.tensor(...)] of plain data: no graph. *)
Definition const (t : tensor) : gtensor :=
  {| fn := fun _ => Some t; leaves := [] |}.

(** [module(x)]: the module's parameters become leaves of the result. *)
Definition call (m : Module) (x : gtensor) : gtensor :=
  {| fn := fun h => apply_module m h <$> fn x h;
     leaves := parameters m ++ leaves x |}.

(** [x.detach()] in store [h]: the current value, cut from the graph. *)
Definition detach (h : heap) (x : gtensor) : gtensor :=
  {| fn := fun _ => fn x h; leaves := [] |}.

Definition t_binop (f : Q -> Q -> Q) (x y : gtensor) : gtensor :=
  {| fn := fun h => a ← fn x h; b ← fn y h; broadcast f a b;
     leaves := leaves x ++ leaves y |}.

Definition t_map (f : Q -> Q) (x : gtensor) : gtensor :=
  {| fn := fun h => tmap f <$> fn x h; leaves := leaves x |}.

Definition t_hstack (x y : gtensor) : gtensor :=
  {| fn := fun h => a ← fn x h; b ← fn y h; hstack a b;
     leaves := leaves x ++ leaves y |}.

Definition t_mean (x : gtensor) : gtensor :=
  {| fn := fun h => (fun t => Vec [mean t]) <$> fn x h; leaves := leaves x |}.

Definition t_add := t_binop Qplus.
Definition t_sub := t_binop Qminus.
Definition t_mul := t_binop Qmult.
(** [c * x] and [c - x] for a Python number [c]. *)
Definition t_scale (c : Q) := t_map (Qmult c).
Definition t_rsub (c : Q) := t_map (fun x => c - x).
Definition t_pow2 := t_map (fun x => x * x).
Definition t_neg := t_map Qopp.
Definition t_clip (lo hi : Q) := t_map (clip lo hi).

(** ** The Adam optimizer *)

Record AdamState := { step : nat; exp_avg : list Q; exp_avg_sq : list Q }.

(** [param_groups] holds references to the optimized parameter objects;
    [opt_state] is the per-parameter state, keyed by position as in
    [state_dict()], absent until the parameter's first step. *)
Record Adam := {
  param_groups : list loc;
  lr : Q;
  opt_state : list (option AdamState)
}.

(** [optim.Adam(params, lr=lr)]: a negative learning rate and an empty
    parameter list are rejected. *)
Definition Adam_new (params : list loc) (rate : Q) : result Adam :=
  if Qltb rate 0 then Raise ValueError
  else match params with
       | [] => Raise ValueError
       | _ => Return {| param_groups := params; lr := rate;
                        opt_state := (fun _ => None) <$> params |}
       end.

(** [optimizer.zero_grad()]: the gradient of every optimized parameter is
    dropped (set to [None], as current PyTorch does by default). *)
Definition zero_grad (o : Adam) (h : heap) : heap :=
  foldl (fun h l => alter (set_grad None) l h) h (param_groups o).

(** ** The replay buffer *)

Record Transition := {
  state : list Q;
  action : list Q;
  reward : Q;
  next_state : list Q;
  done : bool
}.

(** Modelled from the spec: class [ExpReplay], imported from [.buffer],
    whose source file is not available.  A fixed-capacity store of
    transitions:
    [store] appends and, when the buffer is full, evicts the oldest entry;
    [sample n] returns [n] independent uniform draws and fails when fewer
    than [n] transitions are stored; [len] is the occupied count; [clear]
    empties the buffer and keeps the capacity.  The draws are given by
    [rng], the [k]-th draw being entry [rng k mod len]. *)
Record ExpReplay := { capacity : nat; memory : list Transition }.

Definition ExpReplay_new (cap : nat) : ExpReplay :=
  {| capacity := cap; memory := [] |}.

Definition ExpReplay_len (b : ExpReplay) : nat := length (memory b).

Definition ExpReplay_store (t : Transition) (b : ExpReplay) : ExpReplay :=
  {| capacity := capacity b;
     memory := if decide (length (memory b) = capacity b)
               then drop 1 (memory b) ++ [t]
               else memory b ++ [t] |}.

Definition ExpReplay_clear (b : ExpReplay) : ExpReplay :=
  {| capacity := capacity b; memory := [] |}.

Definition ExpReplay_sample (b : ExpReplay) (n : Z) (rng : nat -> nat)
  : result (list Transition) :=
  if (n <? 0)%Z || (Z.of_nat (ExpReplay_len b) <? n)%Z then Raise ValueError
  else Return (omap (fun k => memory b !! (rng k mod ExpReplay_len b)%nat)
                    (seq 0 (Z.to_nat n))).

(** ** The agent and its world *)

Record DDPG := {
  tau : Q;
  gamma : Q;
  batch_size : Z;
  buffer : ExpReplay;
  actor : Module;
  critic : Module;
  actor_optimizer : Adam;
  critic_optimizer : Adam;
  actor_target : Module;
  critic_target : Module
}.

(** What [torch.save] writes: a module's [state_dict()] (one tensor per
    parameter) or an optimizer's (hyper-parameters and per-parameter state). *)
Inductive blob :=
  | ModuleState (sd : list (list Q))
  | OptimizerState (rate : Q) (st : list (option AdamState)).

(** The agent object, the parameter store it points into, and the disk. *)
Record world := {
  self : DDPG;
  mem : heap;
  disk : gmap string blob
}.

(** A method of the agent: it runs in a world and returns a value or
    raises, leaving the world as it was at that moment. *)
Definition method (A : Type) : Type := world -> result A * world.

(** ** [DDPG.__init__] *)

Definition __init__ (Actor Critic : Module) (actor_lr critic_lr disc_rate : Q)
    (batch : Z) (h : heap) (d : gmap string blob) : result world :=
  match Adam_new (parameters Actor) actor_lr with
  | Raise e => Raise e
  | Return a_opt =>
    match Adam_new (parameters Critic) critic_lr with
    | Raise e => Raise e
    | Return c_opt =>
      let '(a_trg, h1) := deepcopy Actor h in
      let '(c_trg, h2) := deepcopy Critic h1 in
      Return {| self := {| tau := 0.05;
                           gamma := disc_rate;
                           batch_size := batch;
                           buffer := ExpReplay_new 10000;
                           actor := Actor;
                           critic := Critic;
                           actor_optimizer := a_opt;
                           critic_optimizer := c_opt;
                           actor_target := a_trg;
                           critic_target := c_trg |};
                mem := h2;
                disk := d |}
    end
  end.

Definition with_buffer (b : ExpReplay) (a : DDPG) : DDPG :=
  {| tau := tau a; gamma := gamma a; batch_size := batch_size a;
     buffer := b;
     actor := actor a; critic := critic a;
     actor_optimizer := actor_optimizer a;
     critic_optimizer := critic_optimizer a;
     actor_target := actor_target a; critic_target := critic_target a |}.

Definition with_optimizers (a_opt c_opt : Adam) (a : DDPG) : DDPG :=
  {| tau := tau a; gamma := gamma a; batch_size := batch_size a;
     buffer := buffer a;
     actor := actor a; critic := critic a;
     actor_optimizer := a_opt;
     critic_optimizer := c_opt;
     actor_target := actor_target a; critic_target := critic_target a |}.

Definition with_self (a : DDPG) (w : world) : world :=
  {| self := a; mem := mem w; disk := disk w |}.

Definition with_mem (h : heap) (w : world) : world :=
  {| self := self w; mem := h; disk := disk w |}.

Definition with_disk (d : gmap string blob) (w : world) : world :=
  {| self := self w; mem := mem w; disk := d |}.

(** ** [DDPG.reset] and [DDPG.store] *)

Definition reset : method unit := fun w =>
  (Return (), with_self (with_buffer (ExpReplay_clear (buffer (self w))) (self w)) w).

Definition store (s a : list Q) (r : Q) (s' : list Q) (d : bool) : method unit :=
  fun w =>
  let t := {| state := s; action := a; reward := r; next_state := s'; done := d |} in
  (Return (), with_self (with_buffer (ExpReplay_store t (buffer (self w))) (self w)) w).

(** ** [DDPG.act] *)

(** [Normal(loc, scale).sample()] for one-element [loc] and [scale].
    [validate_args] is [torch.distributions.Distribution._validate_args]
    (on unless Python runs without assertions): the constructor then checks
    the constraint [scale > 0] and raises [ValueError] otherwise.  Without
    validation the sampler itself rejects a negative standard deviation.
    [eps] is the standard-normal draw. *)
Definition Normal_sample (validate_args : bool) (mu sigma eps : Q)
  : result tensor :=
  if validate_args && negb (Qltb 0 sigma) then Raise ValueError
  else if Qltb sigma 0 then Raise RuntimeError
  else Return (Vec [mu + sigma * eps]).

Definition act (validate_args : bool) (st : list Q) (sigma eps : Q)
  : method tensor := fun w =>
  let x := const (Vec st) in
  let action := call (actor (self w)) x in
  match Normal_sample validate_args 0 sigma eps with
  | Raise e => (Raise e, w)
  | Return noise =>
      match fn (detach (mem w)
                  (t_clip (-2.0) 2.0 (t_add action (const noise)))) (mem w) with
      | Some out => (Return out, w)
      | None => (Raise RuntimeError, w)
      end
  end.

(** ** [DDPG.polyak_update] *)

(** The local names of the loop. *)
Record frame := { trg_param : loc; src_param : loc }.

(** The loop body [trg_param = trg_param * (1.0 - tau) + src_param * tau]:
    the right-hand side is a new tensor, and the assignment binds the
    local name [trg_param] to it. *)
Definition polyak_body (t : Q) (h : heap) (f : frame) : result (heap * frame) :=
  match h !! trg_param f, h !! src_param f with
  | Some tp, Some sp =>
      if decide (length (data tp) = length (data sp)) then
        let blended :=
          zip_with Qplus ((fun x => x * (1.0 - t)) <$> data tp)
                         ((fun x => x * t) <$> data sp) in
        Return (h ++ [{| data := blended; grad := None |}],
                {| trg_param := length h; src_param := src_param f |})
      else Raise RuntimeError
  | _, _ => Raise RuntimeError
  end.

Fixpoint polyak_loop (t : Q) (pairs : list (loc * loc)) (h : heap)
  : result unit * heap :=
  match pairs with
  | [] => (Return (), h)
  | (trg, src) :: rest =>
      match polyak_body t h {| trg_param := trg; src_param := src |} with
      | Raise e => (Raise e, h)
      | Return (h', _) => polyak_loop t rest h'
      end
  end.

Definition polyak_update : method unit := fun w =>
  let a := self w in
  match polyak_loop (tau a)
          (zip (parameters (critic_target a)) (parameters (critic a))) (mem w) with
  | (Raise e, h1) => (Raise e, with_mem h1 w)
  | (Return _, h1) =>
      match polyak_loop (tau a)
              (zip (parameters (actor_target a)) (parameters (actor a))) h1 with
      | (r, h2) => (r, with_mem h2 w)
      end
  end.

(** ** Sequencing of methods *)

Definition m_ret {A} (x : A) : method A := fun w => (Return x, w).

Definition m_bind {A B} (m : method A) (k : A -> method B) : method B :=
  fun w => match m w with
           | (Return x, w') => k x w'
           | (Raise e, w') => (Raise e, w')
           end.

Declare Scope method_scope.
Delimit Scope method_scope with method.
Bind Scope method_scope with method.
Notation "x <- m ;; k" := (m_bind m (fun x => k))
  (at level 100, m at next level, k at level 200, right associativity)
  : method_scope.
Notation "m ;;; k" := (m_bind m (fun _ => k))
  (at level 100, k at level 200, right associativity) : method_scope.

Definition get_self : method DDPG := fun w => (Return (self w), w).
Definition get_mem : method heap := fun w => (Return (mem w), w).
Definition modify_mem (f : heap -> heap) : method unit :=
  fun w => (Return (), with_mem (f (mem w)) w).
Definition modify_self (f : DDPG -> DDPG) : method unit :=
  fun w => (Return (), with_self (f (self w)) w).
Definition lift {A} (r : result A) : method A := fun w => (r, w).

(** The forward pass that builds [x]: a shape error raises here. *)
Definition evaluate (x : gtensor) : method tensor := fun w =>
  match fn x (mem w) with
  | Some t => (Return t, w)
  | None => (Raise RuntimeError, w)
  end.

(** ** [DDPG.save] and [DDPG.load] *)

Definition state_dict (m : Module) (h : heap) : blob :=
  ModuleState (values h (parameters m)).

Definition Adam_state_dict (o : Adam) : blob :=
  OptimizerState (lr o) (opt_state o).

Definition torch_save (b : world -> blob) (name : string) : method unit :=
  fun w => (Return (), with_disk (<[name := b w]> (disk w)) w).

Definition torch_load (name : string) : method blob := fun w =>
  match disk w !! name with
  | Some b => (Return b, w)
  | None => (Raise FileNotFoundError, w)
  end.

Definition save (filename : string) : method unit :=
  (torch_save (fun w => state_dict (critic (self w)) (mem w))
              (filename +:+ "_critic") ;;;
   torch_save (fun w => Adam_state_dict (critic_optimizer (self w)))
              (filename +:+ "_critic_hyp_params") ;;;
   torch_save (fun w => state_dict (actor (self w)) (mem w))
              (filename +:+ "_actor") ;;;
   torch_save (fun w => Adam_state_dict (actor_optimizer (self w)))
              (filename +:+ "_actor_hyp_params"))%method.

(** [Module.load_state_dict] (strict): every entry whose shape matches is
    copied into the parameter object in place; a shape mismatch or a
    missing or unexpected entry is reported after the copying. *)
Fixpoint copy_params (ps : list loc) (sd : list (list Q)) (h : heap)
  : bool * heap :=
  match ps, sd with
  | [], [] => (true, h)
  | l :: ps', v :: sd' =>
      match h !! l with
      | Some p =>
          if decide (length (data p) = length v)
          then copy_params ps' sd' (<[l := set_data v p]> h)
          else (false, (copy_params ps' sd' h).2)
      | None => (false, (copy_params ps' sd' h).2)
      end
  | _, _ => (false, h)
  end.

Definition load_state_dict (m : DDPG -> Module) (b : blob) : method unit :=
  fun w =>
  match b with
  | ModuleState sd =>
      match copy_params (parameters (m (self w))) sd (mem w) with
      | (true, h) => (Return (), with_mem h w)
      | (false, h) => (Raise RuntimeError, with_mem h w)
      end
  | OptimizerState _ _ => (Raise RuntimeError, w)
  end.

(** [Optimizer.load_state_dict]: the saved state must cover as many
    parameters as the optimizer holds; hyper-parameters and state are
    replaced, the parameter references are kept. *)
Definition Adam_load_state_dict (o : Adam) (b : blob) : result Adam :=
  match b with
  | OptimizerState rate st =>
      if decide (length st = length (param_groups o))
      then Return {| param_groups := param_groups o; lr := rate; opt_state := st |}
      else Raise ValueError
  | ModuleState _ => Raise KeyError
  end.

Definition set_critic_optimizer (o : Adam) (a : DDPG) : DDPG :=
  with_optimizers (actor_optimizer a) o a.

Definition set_actor_optimizer (o : Adam) (a : DDPG) : DDPG :=
  with_optimizers o (critic_optimizer a) a.

Definition load (filename : string) : method unit :=
  (b <- torch_load (filename +:+ "_critic") ;;
   load_state_dict critic b ;;;
   b <- torch_load (filename +:+ "_critic_hyp_params") ;;
   a <- get_self ;;
   o <- lift (Adam_load_state_dict (critic_optimizer a) b) ;;
   modify_self (set_critic_optimizer o) ;;;
   b <- torch_load (filename +:+ "_actor") ;;
   load_state_dict actor b ;;;
   b <- torch_load (filename +:+ "_actor_hyp_params") ;;
   a <- get_self ;;
   o <- lift (Adam_load_state_dict (actor_optimizer a) b) ;;
   modify_self (set_actor_optimizer o))%method.

(** ** [DDPG.update] *)

Section Learning.

(** [autograd F h l]: the derivative of the scalar [F] with respect to
    the parameter object [l], at the values stored in [h]. *)
Variable autograd : (heap -> option tensor) -> heap -> loc -> list Q.

(** Adam's update of one parameter: learning rate, step number, first
    and second moment, value and gradient give the new value and the
    new moments. *)
Variable adam_rule :
  Q -> nat -> list Q -> list Q -> list Q -> list Q -> list Q * list Q * list Q.

(** [loss.backward()]: the graph was built in store [saved]; every leaf
    accumulates its derivative. *)
Definition backward (loss : gtensor) (saved : heap) (h : heap) : heap :=
  foldl (fun h l => alter (accumulate (autograd (fn loss) saved l)) l h)
        h (remove_dups (leaves loss)).

Definition zeros_like (v : list Q) : list Q := (fun _ => 0) <$> v.

(** One parameter of [optimizer.step()]: skipped when it has no
    gradient; its state is created on the first step. *)
Definition adam_param (rate : Q) (st : option AdamState) (p : Param)
  : option AdamState * Param :=
  match grad p with
  | None => (st, p)
  | Some g =>
      let s0 := default {| step := 0; exp_avg := zeros_like (data p);
                           exp_avg_sq := zeros_like (data p) |} st in
      let t := S (step s0) in
      let '(v, m1, m2) :=
        adam_rule rate t (exp_avg s0) (exp_avg_sq s0) (data p) g in
      (Some {| step := t; exp_avg := m1; exp_avg_sq := m2 |}, set_data v p)
  end.

Fixpoint adam_loop (rate : Q) (ps : list loc) (sts : list (option AdamState))
    (h : heap) : list (option AdamState) * heap :=
  match ps, sts with
  | l :: ps', st :: sts' =>
      match h !! l with
      | Some p =>
          let '(st', p') := adam_param rate st p in
          let '(r, h') := adam_loop rate ps' sts' (<[l := p']> h) in
          (st' :: r, h')
      | None =>
          let '(r, h') := adam_loop rate ps' sts' h in (st :: r, h')
      end
  | _, _ => (sts, h)
  end.

Definition Adam_step (o : Adam) (h : heap) : Adam * heap :=
  let '(sts, h') := adam_loop (lr o) (param_groups o) (opt_state o) h in
  ({| param_groups := param_groups o; lr := lr o; opt_state := sts |}, h').

(** [self.critic_optimizer.step()] and [self.actor_optimizer.step()]. *)
Definition critic_optimizer_step : method unit := fun w =>
  let '(o, h) := Adam_step (critic_optimizer (self w)) (mem w) in
  (Return (), with_mem h (with_self (set_critic_optimizer o (self w)) w)).

Definition actor_optimizer_step : method unit := fun w =>
  let '(o, h) := Adam_step (actor_optimizer (self w)) (mem w) in
  (Return (), with_mem h (with_self (set_actor_optimizer o (self w)) w)).

(** Line 117 regroups the sampled transitions by field; the namedtuple
    constructor needs five arguments, so an empty sample is a
    [TypeError]. *)
Definition make_batch (ts : list Transition) : result (list Transition) :=
  match ts with
  | [] => Raise TypeError
  | _ => Return ts
  end.

Definition long (b : bool) : Q := if b then 1 else 0.

(** The target [y] of line 128, as a graph tensor. *)
Definition target_y (a : DDPG) (batch : list Transition) : gtensor :=
  let rewards := const (Vec (reward <$> batch)) in
  let dones := const (Vec (long <$> (done <$> batch))) in
  let next_states := const (Mat (next_state <$> batch)) in
  let next_actions := call (actor_target a) next_states in
  t_add rewards
    (t_mul (t_scale (gamma a) (t_rsub 1 dones))
           (call (critic_target a) (t_hstack next_states next_actions))).

(** The critic loss of lines 131-132; [h] is the store in which [y] is
    detached. *)
Definition critic_loss (a : DDPG) (batch : list Transition) (h : heap)
  : gtensor :=
  let states := const (Mat (state <$> batch)) in
  let actions := const (Mat (action <$> batch)) in
  let y := target_y a batch in
  let advantage :=
    t_sub (call (critic a) (t_hstack states actions)) (detach h y) in
  t_mean (t_pow2 advantage).

(** The actor loss of line 140. *)
Definition actor_loss (a : DDPG) (batch : list Transition) : gtensor :=
  let states := const (Mat (state <$> batch)) in
  t_neg (t_mean (call (critic a)
                   (t_hstack states (call (actor a) states)))).

Definition update (rng : nat -> nat) : method unit :=
  (a <- get_self ;;
   if (Z.of_nat (ExpReplay_len (buffer a)) <? batch_size a)%Z then m_ret ()
   else
     transitions <- lift (ExpReplay_sample (buffer a) (batch_size a) rng) ;;
     batch <- lift (make_batch transitions) ;;
     h0 <- get_mem ;;
     let c_loss := critic_loss a batch h0 in
     evaluate c_loss ;;;
     modify_mem (zero_grad (critic_optimizer a)) ;;;
     modify_mem (backward c_loss h0) ;;;
     critic_optimizer_step ;;;
     h3 <- get_mem ;;
     let a_loss := actor_loss a batch in
     evaluate a_loss ;;;
     modify_mem (zero_grad (actor_optimizer a)) ;;;
     modify_mem (backward a_loss h3) ;;;
     actor_optimizer_step)%method.

(** The optimizer and store after lines 135-137, and after lines
    143-145 when the actor loss was built in store [h3]. *)
Definition after_critic_step (a : DDPG) (batch : list Transition) (h0 : heap)
  : Adam * heap :=
  Adam_step (critic_optimizer a)
    (backward (critic_loss a batch h0) h0
       (zero_grad (critic_optimizer a) h0)).

Definition after_actor_step (a : DDPG) (batch : list Transition) (h3 : heap)
  : Adam * heap :=
  Adam_step (actor_optimizer a)
    (backward (actor_loss a batch) h3
       (zero_grad (actor_optimizer a) h3)).

(** ** Calls of the public interface *)

Inductive invocation :=
  | Act (validate_args : bool) (st : list Q) (sigma eps : Q)
  | Store (s a : list Q) (r : Q) (s' : list Q) (d : bool)
  | Reset
  | Update (rng : nat -> nat)
  | PolyakUpdate
  | Save (filename : string)
  | Load (filename : string).

Definition forget {A} (m : method A) : world -> world := fun w => (m w).2.

(** The world after a call, whether it returned or raised. *)
Definition invoke (c : invocation) : world -> world :=
  match c with
  | Act v st sigma eps => forget (act v st sigma eps)
  | Store s a r s' d => forget (store s a r s' d)
  | Reset => forget reset
  | Update rng => forget (update rng)
  | PolyakUpdate => forget polyak_update
  | Save f => forget (save f)
  | Load f => forget (load f)
  end.

End Learning.

(** ** The critic regression in the words of the specification *)

(** The target of one transition:
    [y = reward + gamma * (1 - done) * critic_target(next_state, actor_target(next_state))]. *)
Definition spec_target (a : DDPG) (h : heap) (t : Transition) : list Q :=
  let next_action :=
    forward (actor_target a) (values h (parameters (actor_target a)))
            (next_state t) in
  let q :=
    forward (critic_target a) (values h (parameters (critic_target a)))
            (next_state t ++ next_action) in
  (fun v => reward t + gamma a * (1 - long (done t)) * v) <$> q.

(** The mean squared error between [critic(state, action)] and that target,
    over the transitions of the batch. *)
Definition spec_critic_loss (a : DDPG) (h : heap) (batch : list Transition) : Q :=
  mean (Mat ((fun t =>
                zip_with (fun c y => (c - y) * (c - y))
                  (forward (critic a) (values h (parameters (critic a)))
                           (state t ++ action t))
                  (spec_target a h t)) <$> batch)).

(** The actor loss: the negative mean of [critic(state, actor(state))]
    over the transitions of the batch, for the parameter values stored
    in [h]. *)
Definition spec_actor_loss (a : DDPG) (h : heap) (batch : list Transition) : Q :=
  - mean (Mat ((fun t =>
                  forward (critic a) (values h (parameters (critic a)))
                    (state t ++
                     forward (actor a) (values h (parameters (actor a))) (state t)))
               <$> batch)).

(** ** Consistent worlds *)

Definition online (a : DDPG) : list loc :=
  parameters (actor a) ++ parameters (critic a).

Definition targets (a : DDPG) : list loc :=
  parameters (actor_target a) ++ parameters (critic_target a).

(** The optimizers point at online parameters only, and no target
    parameter object is an online parameter object. *)
Definition separated (a : DDPG) : Prop :=
  param_groups (actor_optimizer a) ⊆ online a /\
  param_groups (critic_optimizer a) ⊆ online a /\
  (forall l, l ∈ targets a -> l ∉ online a).

(** The shape of an agent as Python builds it: every online parameter
    object exists and is listed once, actor and critic share none, and
    each optimizer was created over its network's parameters. *)
Record consistent (w : world) : Prop := {
  online_NoDup : NoDup (online (self w));
  online_allocated : Forall (fun l => (l < length (mem w))%nat) (online (self w));
  actor_group : param_groups (actor_optimizer (self w)) = parameters (actor (self w));
  critic_group : param_groups (critic_optimizer (self w)) = parameters (critic (self w));
  actor_state_length :
    length (opt_state (actor_optimizer (self w))) = length (parameters (actor (self w)));
  critic_state_length :
    length (opt_state (critic_optimizer (self w))) = length (parameters (critic (self w)))
}.

(** Two agents whose networks have identical shapes. *)
Definition same_shapes (w1 w2 : world) : Prop :=
  (length <$> values (mem w1) (parameters (actor (self w1)))) =
  (length <$> values (mem w2) (parameters (actor (self w2)))) /\
  (length <$> values (mem w1) (parameters (critic (self w1)))) =
  (length <$> values (mem w2) (parameters (critic (self w2)))).

Definition in_bounds (lo hi : Q) (v : list Q) : Prop :=
  Forall (fun x => lo <= x /\ x <= hi) v.

(** The four artifact names of a checkpoint. *)
Definition artifacts (filename : string) : list string :=
  [filename +:+ "_critic"; filename +:+ "_critic_hyp_params";
   filename +:+ "_actor"; filename +:+ "_actor_hyp_params"]%string.

(** [actor(state)] for the parameters stored in [w]. *)
Definition actor_output (w : world) (st : list Q) : list Q :=
  forward (actor (self w)) (values (mem w) (parameters (actor (self w)))) st.

(** ** Frames *)

(** [a] holds the same network and parameter references as [a0]. *)
Definition same_refs (a0 a : DDPG) : Prop :=
  actor a = actor a0 /\ critic a = critic a0 /\
  actor_target a = actor_target a0 /\ critic_target a = critic_target a0 /\
  param_groups (actor_optimizer a) = param_groups (actor_optimizer a0) /\
  param_groups (critic_optimizer a) = param_groups (critic_optimizer a0).

(** A method that keeps the references of [a0] and writes to online
    parameter objects only. *)
Definition preserves {A} (a0 : DDPG) (m : method A) : Prop :=
  forall w, same_refs a0 (self w) ->
    same_refs a0 (self (m w).2) /\
    forall l, l ∉ online a0 -> mem (m w).2 !! l = mem w !! l.

(** The part of a world that consistency depends on: the references of
    [a0], a store of at least [n] objects, and optimizer states as long as
    the parameter lists. *)
Definition well_kept (a0 : DDPG) (n : nat) (w : world) : Prop :=
  same_refs a0 (self w) /\ (n <= length (mem w))%nat /\
  length (opt_state (actor_optimizer (self w))) =
    length (param_groups (actor_optimizer a0)) /\
  length (opt_state (critic_optimizer (self w))) =
    length (param_groups (critic_optimizer a0)).

(** A method that keeps that part. *)
Definition maintains {A} (a0 : DDPG) (n : nat) (m : method A) : Prop :=
  forall w, well_kept a0 n w -> well_kept a0 n (m w).2.

(** ** A small agent, used to exercise the definitions *)

(** A one-output linear layer without bias: the dot product of the
    weights with the input row. *)
Definition linear (theta : list (list Q)) (x : list Q) : list Q :=
  [Qsum (zip_with Qmult (concat theta) x)].

Definition ex_heap : heap :=
  [ {| data := [1]; grad := None |}; {| data := [1; 1]; grad := None |} ].

Definition ex_Actor : Module := {| forward := linear; parameters := [0%nat] |}.
Definition ex_Critic : Module := {| forward := linear; parameters := [1%nat] |}.

(** The agent [DDPG(ex_Actor, ex_Critic, 0.001, 0.0001, 0.5, 2)]. *)
Definition ex_agent : DDPG :=
  {| tau := 0.05; gamma := 0.5; batch_size := 2;
     buffer := ExpReplay_new 10000;
     actor := ex_Actor; critic := ex_Critic;
     actor_optimizer :=
       {| param_groups := [0%nat]; lr := 0.001; opt_state := [None] |};
     critic_optimizer :=
       {| param_groups := [1%nat]; lr := 0.0001; opt_state := [None] |};
     actor_target := {| forward := linear; parameters := [2%nat] |};
     critic_target := {| forward := linear; parameters := [3%nat] |} |}.

Definition ex_world : world :=
  {| self := ex_agent;
     mem := ex_heap ++ [ {| data := [1]; grad := None |};
                         {| data := [1; 1]; grad := None |} ];
     disk := ∅ |}.

Definition ex_t1 : Transition :=
  {| state := [1]; action := [1]; reward := 1; next_state := [2]; done := false |}.
Definition ex_t2 : Transition :=
  {| state := [3]; action := [0]; reward := 0; next_state := [4]; done := true |}.

(** [ex_world] after storing the two transitions. *)
Definition ex_world_stored : world :=
  (store [3] [0] 0 [4] true (store [1] [1] 1 [2] false ex_world).2).2.

(** A stand-in for differentiation (every entry gets derivative one) and
    for Adam's formula (a plain gradient step), and the draws [0, 1, ...]. *)
Definition ex_autograd (F : heap -> option tensor) (h : heap) (l : loc) : list Q :=
  (fun _ => 1) <$> from_option data [] (h !! l).

Definition ex_rule (rate : Q) (t : nat) (m1 m2 p g : list Q)
  : list Q * list Q * list Q :=
  (zip_with (fun x d => x - rate * d) p g, m1, m2).

Definition ex_rng (k : nat) : nat := k.

(** An agent whose online networks have moved away from their targets
    (online weights 1, target weights 0). *)
Definition drifted_world : world :=
  {| self := ex_agent;
     mem := [ {| data := [1]; grad := None |};
              {| data := [1; 1]; grad := None |};
              {| data := [0]; grad := None |};
              {| data := [0; 0]; grad := None |} ];
     disk := ∅ |}.

(** [ex_world_stored] after one call of [update]. *)
Definition trained_world : world :=
  (update ex_autograd ex_rule ex_rng ex_world_stored).2.

(** A checkpoint directory that holds the critic's parameters only. *)
Definition partial_checkpoint : world :=
  with_disk {[ "ckpt_critic"%string := ModuleState [[7; 7]] ]} ex_world.

(** The agent [DDPG(ex_Actor, ex_Critic, 0.001, 0.0001, 0.5, 0)], built
    with [batch_size = 0], after storing the two transitions. *)
Definition zero_batch_world : world :=
  {| self := {| tau := 0.05; gamma := 0.5; batch_size := 0;
                buffer := buffer (self ex_world_stored);
                actor := ex_Actor; critic := ex_Critic;
                actor_optimizer := actor_optimizer ex_agent;
                critic_optimizer := critic_optimizer ex_agent;
                actor_target := actor_target ex_agent;
                critic_target := critic_target ex_agent |};
     mem := mem ex_world_stored;
     disk := ∅ |}.

(** ** Runs of the public interface *)

Section Runs.
Variable autograd : (heap -> option tensor) -> heap -> loc -> list Q.
Variable adam_rule :
  Q -> nat -> list Q -> list Q -> list Q -> list Q -> list Q * list Q * list Q.

(** The world after a sequence of calls, each of them returning or
    raising. *)
Definition run (cs : list invocation) (w : world) : world :=
  foldl (fun w c => invoke autograd adam_rule c w) w cs.
End Runs.

(** A method whose final world is related by [R] to the world it was
    called in, whether it returns or raises. *)
Definition respects {A} (R : world -> world -> Prop) (m : method A) : Prop :=
  forall w, R w (m w).2.

(** The attributes that only the constructor assigns. *)
Definition fixed_attributes (a : DDPG)
  : Q * Q * Z * Module * Module * Module * Module :=
  (tau a, gamma a, batch_size a, actor a, critic a, actor_target a, critic_target a).

Definition is_Store (c : invocation) : bool :=
  match c with Store _ _ _ _ _ => true | _ => false end.

(** The calls whose body touches [self.buffer] to write: [store] and [reset]. *)
Definition writes_buffer (c : invocation) : bool :=
  match c with Store _ _ _ _ _ | Reset => true | _ => false end.

(** The number of calls of [store] in a sequence of calls. *)
Definition stores (cs : list invocation) : nat :=
  length (filter (fun c => is_Store c = true) cs).

(** A pair of parameter objects of one shape, as [polyak_update] zips
    them. *)
Definition same_shape (h : heap) (p : loc * loc) : Prop :=
  exists tp sp, h !! p.1 = Some tp /\ h !! p.2 = Some sp /\
                length (data tp) = length (data sp).

(** ** The training script [main_test.py] *)

Definition BATCH_SIZE : Z := 32.
Definition N_EPISODE : nat := 1000.
Definition DISC_RATE : Q := 0.99.
Definition TRG_UPDATE : nat := 100.

(** [agent = DDPG(actor, critic, 1e-3, 1e-4, DISC_RATE, BATCH_SIZE)]. *)
Definition main_test_agent (actor critic : Module) (h : heap)
    (d : gmap string blob) : result world :=
  __init__ actor critic 0.001 0.0001 DISC_RATE BATCH_SIZE h d.

(** How far a loop has come: it finished with a value, it stopped on an
    exception, or it is still running after the steps it was granted. *)
Inductive progress (A : Type) :=
  | Finished (x : A)
  | Stopped (e : exn)
  | Running.
Arguments Finished {A} x.
Arguments Stopped {A} e.
Arguments Running {A}.

Section Training.
Variable autograd : (heap -> option tensor) -> heap -> loc -> list Q.
Variable adam_rule :
  Q -> nat -> list Q -> list Q -> list Q -> list Q -> list Q * list Q * list Q.

(** The gym environment: [env.reset()] gives the first observation,
    [env.step(action)] the next observation, the reward and the flag
    [done]. *)
Variable Env : Type.
Variable env_reset : Env -> list Q * Env.
Variable env_step : list Q -> Env -> list Q * Q * bool * Env.

(** The random draws: the noise of the [k]-th call of [act] and the
    indices of the [k]-th call of [update]. *)
Variable validate_args : bool.
Variable eps : nat -> Q.
Variable rng : nat -> nat -> nat.

(** The [while True] loop of one episode (lines 39-55), for at most
    [fuel] environment steps; [k] counts the steps since the start of
    the script. *)
Fixpoint episode_loop (fuel k : nat) (st : list Q) (total_reward : Q)
    (env : Env) (w : world) : progress (Q * nat * Env) * world :=
  match fuel with
  | O => (Running, w)
  | S fuel' =>
    match act validate_args st 0.5 (eps k) w with
    | (Raise e, w1) => (Stopped e, w1)
    | (Return a, w1) =>
      let '(st', r, d, env') := env_step (entries a) env in
      match store st (entries a) r st' d w1 with
      | (Raise e, w2) => (Stopped e, w2)
      | (Return _, w2) =>
        match update autograd adam_rule (rng k) w2 with
        | (Raise e, w3) => (Stopped e, w3)
        | (Return _, w3) =>
          if d then (Finished (total_reward + r, S k, env'), w3)
          else episode_loop fuel' (S k) st' (total_reward + r) env' w3
        end
      end
    end
  end.

(** The loop over the episodes (lines 34-61): after each episode whose
    number is a multiple of [TRG_UPDATE], [polyak_update] is called. *)
Fixpoint episodes_loop (fuel : nat) (episodes : list nat) (k : nat)
    (episode_rewards : list Q) (env : Env) (w : world)
  : progress (list Q) * world :=
  match episodes with
  | [] => (Finished episode_rewards, w)
  | episode :: rest =>
    let '(st, env0) := env_reset env in
    match episode_loop fuel k st 0 env0 w with
    | (Finished (total_reward, k', env'), w1) =>
      let episode_rewards' := episode_rewards ++ [total_reward] in
      if (episode mod TRG_UPDATE =? 0)%nat then
        match polyak_update w1 with
        | (Raise e, w2) => (Stopped e, w2)
        | (Return _, w2) => episodes_loop fuel rest k' episode_rewards' env' w2
        end
      else episodes_loop fuel rest k' episode_rewards' env' w1
    | (Stopped e, w1) => (Stopped e, w1)
    | (Running, w1) => (Running, w1)
    end
  end.

Definition main_test (fuel : nat) (env : Env) (w : world)
  : progress (list Q) * world :=
  episodes_loop fuel (seq 0 N_EPISODE) 0 [] env w.
End Training.

(** * Properties *)

(** ** Tensors *)

Lemma broadcast_row_one f u b :
  broadcast_row f u [b] = Some ((fun x => f x b) <$> u).
Proof.
  unfold broadcast_row. destruct (decide _) as [E|E].
  - destruct u as [|a [|a' u']]; simpl in E; try discriminate. reflexivity.
  - destruct u as [|a [|a' u']]; simpl in *; try done.
Qed.

Lemma broadcast_row_same f u v :
  length u = length v -> broadcast_row f u v = Some (zip_with f u v).
Proof. intros H. unfold broadcast_row. by rewrite decide_True. Qed.

Lemma clip_in_bounds lo hi x :
  lo <= hi -> lo <= clip lo hi x /\ clip lo hi x <= hi.
Proof.
  intros H. unfold clip. split.
  - apply Q.min_glb; [apply Q.le_max_r | exact H].
  - apply Q.le_min_r.
Qed.

Lemma clip_proper lo hi x y : x == y -> clip lo hi x == clip lo hi y.
Proof. intros H. unfold clip. rewrite H. reflexivity. Qed.

Lemma mapM_fmap_Some_ext {A B C} (f : B -> option C) (k : A -> B) (g : A -> C)
    (l : list A) :
  (forall x, x ∈ l -> f (k x) = Some (g x)) -> mapM f (k <$> l) = Some (g <$> l).
Proof.
  intros H. apply mapM_Some. apply Forall2_fmap, Forall_Forall2_diag, Forall_forall.
  intros x Hx. by apply H.
Qed.

Lemma zip_with_fmap_same {A B C D} (f : B -> C -> D) (g1 : A -> B) (g2 : A -> C) l :
  zip_with f (g1 <$> l) (g2 <$> l) = (fun x => f (g1 x) (g2 x)) <$> l.
Proof. induction l as [|x l IH]; csimpl; [done|]. by rewrite IH. Qed.

Lemma fmap_length_eq {A B} (f : A -> nat) (g : B -> nat) (l : list A) (k : list B) :
  f <$> l = g <$> k -> length l = length k.
Proof. intros H. apply (f_equal length) in H. by rewrite !length_fmap in H. Qed.

(** ** Reading the store *)

Lemma values_length (h : list Param) ls : length (values h ls) = length ls.
Proof. unfold values. by rewrite length_fmap. Qed.

Lemma values_ext (h h' : list Param) ls :
  (forall l, l ∈ ls -> h' !! l = h !! l) -> values h' ls = values h ls.
Proof.
  intros H. unfold values. apply Forall_fmap_ext_1, Forall_forall.
  intros l Hl. by rewrite H.
Qed.

Lemma values_app_allocated (h g : list Param) ls :
  Forall (fun l => (l < length h)%nat) ls -> values (h ++ g) ls = values h ls.
Proof.
  intros H. apply values_ext. intros l Hl. rewrite Forall_forall in H.
  apply lookup_app_l. by apply H.
Qed.

(** ** In-place updates of a list of parameter objects *)

Section Store.
Variable f : nat -> Param -> Param.

Lemma foldl_alter_other ls (h : list Param) l :
  l ∉ ls -> foldl (fun h l => alter (f l) l h) h ls !! l = h !! l.
Proof.
  revert h. induction ls as [|k ls IH]; intros h Hl; simpl; [done|].
  apply not_elem_of_cons in Hl as [Hk Hl].
  rewrite IH by done. by apply list_lookup_alter_ne.
Qed.

Lemma foldl_alter_elem ls (h : list Param) l :
  NoDup ls -> l ∈ ls ->
  foldl (fun h l => alter (f l) l h) h ls !! l = f l <$> h !! l.
Proof.
  revert h. induction ls as [|k ls IH]; intros h Hnd Hl; simpl.
  - by apply elem_of_nil in Hl.
  - apply NoDup_cons in Hnd as [Hk Hnd].
    apply elem_of_cons in Hl as [->|Hl].
    + rewrite foldl_alter_other by done. apply list_lookup_alter_eq.
    + rewrite IH by done. rewrite list_lookup_alter_ne; [done|].
      intros ->. done.
Qed.
End Store.

Lemma zero_grad_other o (h : list Param) l :
  l ∉ param_groups o -> zero_grad o h !! l = h !! l.
Proof. apply (foldl_alter_other (fun _ => set_grad None)). Qed.

Lemma zero_grad_elem o (h : list Param) l p :
  NoDup (param_groups o) -> l ∈ param_groups o -> h !! l = Some p ->
  zero_grad o h !! l = Some (set_grad None p).
Proof.
  intros Hnd Hl Hp. unfold zero_grad.
  rewrite (foldl_alter_elem (fun _ => set_grad None)) by done. by rewrite Hp.
Qed.

(** ** [Module.load_state_dict] *)

Lemma copy_params_other ps sd (h : list Param) l :
  l ∉ ps -> (copy_params ps sd h).2 !! l = h !! l.
Proof.
  revert sd h. induction ps as [|k ps IH]; intros sd h Hl; simpl.
  - by destruct sd.
  - apply not_elem_of_cons in Hl as [Hk Hl].
    destruct sd as [|v sd]; [done|].
    destruct (h !! k) as [p|]; [destruct (decide _)|]; simpl;
      rewrite ?IH by done; try done.
    by apply list_lookup_insert_ne.
Qed.

Lemma copy_params_length ps sd (h : list Param) :
  length (copy_params ps sd h).2 = length h.
Proof.
  revert sd h. induction ps as [|k ps IH]; intros sd h; simpl.
  - by destruct sd.
  - destruct sd as [|v sd]; [done|].
    destruct (h !! k) as [p|]; [destruct (decide _)|]; simpl; rewrite ?IH; try done.
    by rewrite length_insert.
Qed.

(** Tensors of the shapes of the parameters are all copied. *)
Lemma copy_params_restores ps sd (h : list Param) :
  NoDup ps ->
  Forall (fun l => (l < length h)%nat) ps ->
  length <$> values h ps = length <$> sd ->
  (copy_params ps sd h).1 = true /\ values (copy_params ps sd h).2 ps = sd.
Proof.
  revert sd h. induction ps as [|k ps IH]; intros sd h Hnd Hal Hsh.
  - destruct sd; [done|discriminate].
  - destruct sd as [|v sd]; [discriminate|].
    apply NoDup_cons in Hnd as [Hk Hnd].
    apply Forall_cons in Hal as [Hka Hal].
    unfold values in Hsh. rewrite !fmap_cons in Hsh. injection Hsh as Hv Hsh.
    destruct (lookup_lt_is_Some_2 h k Hka) as [p Hp].
    simpl. rewrite Hp in *. simpl in Hv.
    rewrite decide_True by done.
    destruct (IH sd (<[k:=set_data v p]> h)) as [H1 H2]; [done| | |].
    { by rewrite length_insert. }
    { rewrite <- Hsh. f_equal. unfold values. apply Forall_fmap_ext_1, Forall_forall.
      intros l Hl. rewrite list_lookup_insert_ne; [done|]. intros ->. done. }
    split; [done|].
    unfold values in *. simpl. rewrite H2.
    rewrite copy_params_other by done.
    rewrite list_lookup_insert_eq by done. done.
Qed.

(** ** The optimizer step *)

Section AdamLemmas.
Variable adam_rule :
  Q -> nat -> list Q -> list Q -> list Q -> list Q -> list Q * list Q * list Q.

Lemma adam_loop_other rate ps sts (h : list Param) l :
  l ∉ ps -> (adam_loop adam_rule rate ps sts h).2 !! l = h !! l.
Proof.
  revert sts h. induction ps as [|k ps IH]; intros sts h Hl; simpl; [done|].
  apply not_elem_of_cons in Hl as [Hk Hl].
  destruct sts as [|st sts]; [done|].
  destruct (h !! k) as [p|] eqn:Hp.
  - destruct (adam_param adam_rule rate st p) as [st' p'].
    specialize (IH sts (<[k:=p']> h) Hl).
    destruct (adam_loop _ _ _ _ (<[k:=p']> h)) as [r h']. simpl in *.
    rewrite IH. by apply list_lookup_insert_ne.
  - specialize (IH sts h Hl).
    destruct (adam_loop _ _ _ _ h) as [r h']. done.
Qed.

Lemma adam_loop_lookup rate ps sts (h : list Param) i l p st :
  NoDup ps ->
  ps !! i = Some l -> sts !! i = Some st -> h !! l = Some p ->
  (adam_loop adam_rule rate ps sts h).2 !! l =
    Some (adam_param adam_rule rate st p).2 /\
  (adam_loop adam_rule rate ps sts h).1 !! i =
    Some (adam_param adam_rule rate st p).1.
Proof.
  revert sts h i. induction ps as [|k ps IH]; intros sts h i Hnd Hi Hst Hp; [done|].
  apply NoDup_cons in Hnd as [Hk Hnd].
  destruct sts as [|st0 sts]; [done|].
  destruct i as [|i]; simpl in Hi, Hst.
  - injection Hi as ->. injection Hst as ->. simpl. rewrite Hp.
    destruct (adam_param adam_rule rate st p) as [st' p'] eqn:E.
    pose proof (adam_loop_other rate ps sts (<[l:=p']> h) l Hk) as Ho.
    destruct (adam_loop _ _ _ _ (<[l:=p']> h)) as [r h']. simpl in *.
    split; [|done]. rewrite Ho. apply list_lookup_insert_eq.
    by eapply lookup_lt_Some.
  - assert (k <> l) as Hkl
      by (intros ->; apply Hk; by eapply list_elem_of_lookup_2).
    simpl. destruct (h !! k) as [pk|] eqn:Hpk.
    + destruct (adam_param adam_rule rate st0 pk) as [st' p'].
      destruct (IH sts (<[k:=p']> h) i Hnd Hi Hst) as [H1 H2].
      { by rewrite list_lookup_insert_ne. }
      destruct (adam_loop _ _ _ _ (<[k:=p']> h)) as [r h']. done.
    + destruct (IH sts h i Hnd Hi Hst Hp) as [H1 H2].
      destruct (adam_loop _ _ _ _ h) as [r h']. done.
Qed.

Lemma Adam_step_groups o (h : list Param) :
  param_groups (Adam_step adam_rule o h).1 = param_groups o.
Proof. unfold Adam_step. by destruct (adam_loop _ _ _ _ _). Qed.

Lemma Adam_step_other o (h : list Param) l :
  l ∉ param_groups o -> (Adam_step adam_rule o h).2 !! l = h !! l.
Proof.
  intros Hl. unfold Adam_step.
  pose proof (adam_loop_other (lr o) (param_groups o) (opt_state o) h l Hl).
  by destruct (adam_loop _ _ _ _ _).
Qed.

Lemma Adam_step_lookup o (h : list Param) i l p st :
  NoDup (param_groups o) ->
  param_groups o !! i = Some l -> opt_state o !! i = Some st -> h !! l = Some p ->
  (Adam_step adam_rule o h).2 !! l = Some (adam_param adam_rule (lr o) st p).2 /\
  opt_state (Adam_step adam_rule o h).1 !! i =
    Some (adam_param adam_rule (lr o) st p).1.
Proof.
  intros Hnd Hi Hst Hp. unfold Adam_step.
  pose proof (adam_loop_lookup (lr o) _ _ h i l p st Hnd Hi Hst Hp) as H.
  by destruct (adam_loop _ _ _ _ _).
Qed.

(** A parameter with a gradient takes one step: its counter goes up by one. *)
Lemma adam_param_step rate st p g :
  grad p = Some g ->
  step <$> (adam_param adam_rule rate st p).1 =
    Some (S (from_option step 0%nat st)) /\
  grad (adam_param adam_rule rate st p).2 = Some g.
Proof.
  intros Hg. unfold adam_param. rewrite Hg.
  destruct (adam_rule _ _ _ _ _ _) as [[v m1] m2]. simpl. by destruct st.
Qed.
End AdamLemmas.

(** ** Construction *)

Lemma Adam_new_inv ps rate o :
  Adam_new ps rate = Return o ->
  param_groups o = ps /\ lr o = rate /\ opt_state o = (fun _ => None) <$> ps.
Proof.
  unfold Adam_new. destruct (Qltb rate 0); [discriminate|].
  destruct ps; [discriminate|]. intros [= <-]. done.
Qed.

Lemma Adam_load_state_dict_groups o b o' :
  Adam_load_state_dict o b = Return o' -> param_groups o' = param_groups o.
Proof.
  destruct b as [|rate st]; simpl; [done|].
  destruct (decide _); [|done]. by intros [= <-].
Qed.

(** The copy has the same architecture and values, and lives in fresh
    parameter objects. *)
Lemma deepcopy_spec m (h : list Param) :
  Forall (fun l => (l < length h)%nat) (parameters m) ->
  forward (deepcopy m h).1 = forward m /\
  values (deepcopy m h).2 (parameters (deepcopy m h).1) = values h (parameters m) /\
  (forall l, l ∈ parameters (deepcopy m h).1 ->
     (length h <= l)%nat /\ (l < length (deepcopy m h).2)%nat) /\
  exists fresh, (deepcopy m h).2 = h ++ fresh.
Proof.
  intros Hal. unfold deepcopy. split; [done|]. split; [|split].
  - simpl. unfold values at 1.
    apply list_eq. intros i. rewrite list_lookup_fmap.
    destruct (decide (i < length (parameters m))%nat) as [Hi|Hi].
    + rewrite lookup_seq_lt by done. simpl.
      rewrite lookup_app_r by lia.
      replace (length h + i - length h)%nat with i by lia.
      rewrite list_lookup_fmap.
      destruct (lookup_lt_is_Some_2 (values h (parameters m)) i) as [v Hv].
      { unfold values. by rewrite length_fmap. }
      by rewrite Hv.
    + rewrite lookup_seq_ge by lia. simpl. symmetry. apply lookup_ge_None.
      unfold values. rewrite length_fmap. lia.
  - simpl. intros l Hl. apply elem_of_seq in Hl.
    rewrite length_app, length_fmap. unfold values. rewrite length_fmap. lia.
  - eauto.
Qed.

Lemma init_world Actor Critic actor_lr critic_lr disc_rate batch (h : list Param) d w :
  __init__ Actor Critic actor_lr critic_lr disc_rate batch h d = Return w ->
  actor (self w) = Actor /\ critic (self w) = Critic /\
  param_groups (actor_optimizer (self w)) = parameters Actor /\
  param_groups (critic_optimizer (self w)) = parameters Critic /\
  actor_target (self w) = (deepcopy Actor h).1 /\
  critic_target (self w) = (deepcopy Critic (deepcopy Actor h).2).1 /\
  mem w = (deepcopy Critic (deepcopy Actor h).2).2.
Proof.
  unfold __init__.
  destruct (Adam_new (parameters Actor) actor_lr) as [oa|] eqn:Ea; [|discriminate].
  destruct (Adam_new (parameters Critic) critic_lr) as [oc|] eqn:Ec; [|discriminate].
  apply Adam_new_inv in Ea as (Ea & _). apply Adam_new_inv in Ec as (Ec & _).
  unfold deepcopy. intros [= <-]. done.
Qed.

(** ** [polyak_update] only allocates *)

Lemma polyak_loop_appends t pairs (h : list Param) :
  exists garbage, (polyak_loop t pairs h).2 = h ++ garbage.
Proof.
  revert h. induction pairs as [|[trg src] rest IH]; intros h; simpl.
  - exists []. by rewrite app_nil_r.
  - unfold polyak_body; simpl.
    destruct (h !! trg) as [tp|]; [|exists []; by rewrite app_nil_r].
    destruct (h !! src) as [sp|]; [|exists []; by rewrite app_nil_r].
    destruct (decide _); [|exists []; by rewrite app_nil_r].
    destruct (IH (h ++ [{| data :=
                             zip_with Qplus ((fun x => x * (1.0 - t)) <$> data tp)
                                            ((fun x => x * t) <$> data sp);
                           grad := None |}])) as [g Hg].
    rewrite Hg. rewrite <- app_assoc. eauto.
Qed.

Lemma polyak_update_frame w :
  self (polyak_update w).2 = self w /\
  disk (polyak_update w).2 = disk w /\
  exists garbage, mem (polyak_update w).2 = mem w ++ garbage.
Proof.
  unfold polyak_update.
  destruct (polyak_loop_appends (tau (self w))
    (zip (parameters (critic_target (self w))) (parameters (critic (self w))))
    (mem w)) as [g1 H1].
  destruct (polyak_loop _ _ (mem w)) as [[[]|e] h1]; simpl in *; subst h1.
  - destruct (polyak_loop_appends (tau (self w))
      (zip (parameters (actor_target (self w))) (parameters (actor (self w))))
      (mem w ++ g1)) as [g2 H2].
    destruct (polyak_loop _ _ (mem w ++ g1)) as [r h2]; simpl in *; subst h2.
    repeat split. rewrite <- app_assoc. eauto.
  - repeat split. eauto.
Qed.

(** ** [act] *)

Lemma Normal_sample_positive v sigma eps :
  0 < sigma -> Normal_sample v 0 sigma eps = Return (Vec [0 + sigma * eps]).
Proof.
  intros H. unfold Normal_sample, Qltb.
  assert (Qle_bool sigma 0 = false) as ->.
  { destruct (Qle_bool sigma 0) eqn:E; [|done]. apply Qle_bool_iff in E.
    exfalso. eapply Qlt_not_le; eauto. }
  assert (Qle_bool 0 sigma = true) as ->.
  { apply Qle_bool_iff. by apply Qlt_le_weak. }
  simpl. by rewrite andb_false_r.
Qed.

Lemma Normal_sample_validated sigma eps :
  sigma <= 0 -> Normal_sample true 0 sigma eps = Raise ValueError.
Proof.
  intros H. unfold Normal_sample, Qltb.
  apply Qle_bool_iff in H. by rewrite H.
Qed.

Lemma Normal_sample_negative sigma eps :
  sigma < 0 -> Normal_sample false 0 sigma eps = Raise RuntimeError.
Proof.
  intros H. unfold Normal_sample, Qltb. simpl.
  destruct (Qle_bool 0 sigma) eqn:E; [|done].
  apply Qle_bool_iff in E. exfalso. eapply Qlt_not_le; eauto.
Qed.

(** Once the noise is drawn, [act] returns the clipped noisy action and
    leaves the world as it is. *)
Lemma act_returns v st sigma eps w :
  Normal_sample v 0 sigma eps = Return (Vec [0 + sigma * eps]) ->
  act v st sigma eps w =
    (Return (Vec ((fun x => clip (-2.0) 2.0 (x + (0 + sigma * eps)))
                    <$> actor_output w st)), w).
Proof.
  intros HN. unfold act. rewrite HN. simpl.
  rewrite broadcast_row_one. simpl.
  rewrite <- list_fmap_compose. reflexivity.
Qed.

Lemma clipped_in_bounds (f : Q -> Q) (v : list Q) :
  in_bounds (-2.0) 2.0 ((fun x => clip (-2.0) 2.0 (f x)) <$> v).
Proof.
  unfold in_bounds. apply Forall_fmap, Forall_true. intros x.
  by apply clip_in_bounds.
Qed.

(** ** Frames of the public calls *)

Section Frame.
Variable autograd : (heap -> option tensor) -> heap -> loc -> list Q.
Variable adam_rule :
  Q -> nat -> list Q -> list Q -> list Q -> list Q -> list Q * list Q * list Q.

Lemma backward_other loss saved (h : list Param) l :
  l ∉ leaves loss -> backward autograd loss saved h !! l = h !! l.
Proof.
  intros Hl. unfold backward.
  apply (foldl_alter_other (fun l => accumulate (autograd (fn loss) saved l))).
  by rewrite elem_of_remove_dups.
Qed.

Lemma backward_elem loss saved (h : list Param) l p :
  l ∈ leaves loss -> h !! l = Some p ->
  backward autograd loss saved h !! l =
    Some (accumulate (autograd (fn loss) saved l) p).
Proof.
  intros Hl Hp. unfold backward.
  rewrite (foldl_alter_elem (fun l => accumulate (autograd (fn loss) saved l))).
  - by rewrite Hp.
  - apply NoDup_remove_dups.
  - by rewrite elem_of_remove_dups.
Qed.

(** [backward] on the critic loss reaches the critic's parameters only:
    the target [y] is detached. *)
Lemma critic_loss_leaves a batch (h : list Param) :
  leaves (critic_loss a batch h) = parameters (critic a).
Proof. simpl. by rewrite !app_nil_r. Qed.

Lemma actor_loss_leaves a batch :
  leaves (actor_loss a batch) = parameters (critic a) ++ parameters (actor a).
Proof. simpl. by rewrite !app_nil_r. Qed.

Lemma actor_loss_defined a batch (h : list Param) :
  is_Some (fn (actor_loss a batch) h).
Proof.
  simpl. rewrite decide_True by (by rewrite !length_fmap). simpl. eauto.
Qed.

Variable a0 : DDPG.
Hypothesis Hsep : separated a0.

Lemma same_refs_refl : same_refs a0 a0.
Proof. by repeat split. Qed.

Lemma preserves_ret {A} (x : A) : preserves a0 (m_ret x).
Proof. by intros w Hw. Qed.

Lemma preserves_lift {A} (r : result A) : preserves a0 (lift r).
Proof. by intros w Hw. Qed.

Lemma preserves_bind {A B} (m : method A) (k : A -> method B) :
  preserves a0 m -> (forall x, preserves a0 (k x)) -> preserves a0 (m_bind m k).
Proof.
  intros Hm Hk w Hw. unfold m_bind.
  destruct (Hm w Hw) as [H1 H2]. destruct (m w) as [[x|e] w1]; simpl in *; [|done].
  destruct (Hk x w1 H1) as [H3 H4]. split; [done|].
  intros l Hl. by rewrite H4, H2.
Qed.

Lemma preserves_get_self {B} (k : DDPG -> method B) :
  (forall a, same_refs a0 a -> preserves a0 (k a)) ->
  preserves a0 (m_bind get_self k).
Proof. intros Hk w Hw. unfold m_bind, get_self. by apply Hk. Qed.

Lemma preserves_lift_bind {A B} (r : result A) (k : A -> method B) :
  (forall x, r = Return x -> preserves a0 (k x)) ->
  preserves a0 (m_bind (lift r) k).
Proof.
  intros Hk w Hw. unfold m_bind, lift. destruct r as [x|e]; [|done].
  by apply Hk.
Qed.

Lemma preserves_get_mem : preserves a0 get_mem.
Proof. by intros w Hw. Qed.

Lemma preserves_evaluate x : preserves a0 (evaluate x).
Proof. intros w Hw. unfold evaluate. by destruct (fn x (mem w)). Qed.

Lemma preserves_modify_mem (f : list Param -> list Param) :
  (forall h l, l ∉ online a0 -> f h !! l = h !! l) ->
  preserves a0 (modify_mem f).
Proof. intros Hf w Hw. split; [done|]. intros l Hl. simpl. by apply Hf. Qed.

Lemma preserves_torch_save b name : preserves a0 (torch_save b name).
Proof. by intros w Hw. Qed.

Lemma preserves_torch_load name : preserves a0 (torch_load name).
Proof. intros w Hw. unfold torch_load. by destruct (disk w !! name). Qed.

Lemma online_actor l : l ∉ online a0 -> l ∉ parameters (actor a0).
Proof. unfold online. rewrite not_elem_of_app. tauto. Qed.

Lemma online_critic l : l ∉ online a0 -> l ∉ parameters (critic a0).
Proof. unfold online. rewrite not_elem_of_app. tauto. Qed.

Lemma online_actor_group l :
  l ∉ online a0 -> l ∉ param_groups (actor_optimizer a0).
Proof. destruct Hsep as (H & _ & _). intros Hl Hin. by apply Hl, H. Qed.

Lemma online_critic_group l :
  l ∉ online a0 -> l ∉ param_groups (critic_optimizer a0).
Proof. destruct Hsep as (_ & H & _). intros Hl Hin. by apply Hl, H. Qed.

Lemma preserves_load_actor b : preserves a0 (load_state_dict actor b).
Proof.
  intros w Hw. unfold load_state_dict. destruct b as [sd|]; [|done].
  pose proof Hw as (Ha & _).
  pose proof (copy_params_other (parameters (actor (self w))) sd (mem w)) as Ho.
  destruct (copy_params _ sd (mem w)) as [[] h]; simpl in *;
    (split; [exact Hw|]); intros l Hl; apply Ho; rewrite Ha;
    by apply online_actor.
Qed.

Lemma preserves_load_critic b : preserves a0 (load_state_dict critic b).
Proof.
  intros w Hw. unfold load_state_dict. destruct b as [sd|]; [|done].
  pose proof Hw as (_ & Hc & _).
  pose proof (copy_params_other (parameters (critic (self w))) sd (mem w)) as Ho.
  destruct (copy_params _ sd (mem w)) as [[] h]; simpl in *;
    (split; [exact Hw|]); intros l Hl; apply Ho; rewrite Hc;
    by apply online_critic.
Qed.

Lemma preserves_critic_step : preserves a0 (critic_optimizer_step adam_rule).
Proof.
  intros w Hw. unfold critic_optimizer_step.
  pose proof (Adam_step_groups adam_rule (critic_optimizer (self w)) (mem w)) as Hg.
  pose proof (Adam_step_other adam_rule (critic_optimizer (self w)) (mem w)) as Ho.
  destruct (Adam_step _ _ _) as [o h]. simpl in *.
  destruct Hw as (? & ? & ? & ? & ? & Hc).
  split; [repeat split; try done; simpl; congruence|].
  intros l Hl. apply Ho. rewrite Hc. by apply online_critic_group.
Qed.

Lemma preserves_actor_step : preserves a0 (actor_optimizer_step adam_rule).
Proof.
  intros w Hw. unfold actor_optimizer_step.
  pose proof (Adam_step_groups adam_rule (actor_optimizer (self w)) (mem w)) as Hg.
  pose proof (Adam_step_other adam_rule (actor_optimizer (self w)) (mem w)) as Ho.
  destruct (Adam_step _ _ _) as [o h]. simpl in *.
  destruct Hw as (? & ? & ? & ? & Ha & ?).
  split; [repeat split; try done; simpl; congruence|].
  intros l Hl. apply Ho. rewrite Ha. by apply online_actor_group.
Qed.

Lemma preserves_update rng : preserves a0 (update autograd adam_rule rng).
Proof.
  unfold update. apply preserves_get_self. intros a Ha.
  destruct (_ <? _)%Z; [apply preserves_ret|].
  apply preserves_bind; [apply preserves_lift|]. intros transitions.
  apply preserves_bind; [apply preserves_lift|]. intros batch.
  apply preserves_bind; [apply preserves_get_mem|]. intros h0.
  destruct Ha as (Ha & Hc & _ & _ & Hga & Hgc).
  apply preserves_bind; [apply preserves_evaluate|]. intros _.
  apply preserves_bind.
  { apply preserves_modify_mem. intros h l Hl. apply zero_grad_other.
    rewrite Hgc. by apply online_critic_group. }
  intros _. apply preserves_bind.
  { apply preserves_modify_mem. intros h l Hl. apply backward_other.
    rewrite critic_loss_leaves, Hc. by apply online_critic. }
  intros _. apply preserves_bind; [apply preserves_critic_step|]. intros _.
  apply preserves_bind; [apply preserves_get_mem|]. intros h3.
  apply preserves_bind; [apply preserves_evaluate|]. intros _.
  apply preserves_bind.
  { apply preserves_modify_mem. intros h l Hl. apply zero_grad_other.
    rewrite Hga. by apply online_actor_group. }
  intros _. apply preserves_bind.
  { apply preserves_modify_mem. intros h l Hl. apply backward_other.
    rewrite actor_loss_leaves, Hc, Ha. rewrite not_elem_of_app.
    split; [by apply online_critic | by apply online_actor]. }
  intros _. apply preserves_actor_step.
Qed.

Lemma preserves_load f : preserves a0 (load f).
Proof.
  unfold load.
  apply preserves_bind; [apply preserves_torch_load|]. intros b1.
  apply preserves_bind; [apply preserves_load_critic|]. intros _.
  apply preserves_bind; [apply preserves_torch_load|]. intros b2.
  apply preserves_get_self. intros a Ha.
  apply preserves_lift_bind. intros o Ho.
  apply Adam_load_state_dict_groups in Ho.
  apply preserves_bind.
  { intros w Hw. split; [|done]. simpl.
    destruct Ha as (? & ? & ? & ? & ? & ?), Hw as (? & ? & ? & ? & ? & ?).
    repeat split; simpl; congruence. }
  intros _.
  apply preserves_bind; [apply preserves_torch_load|]. intros b3.
  apply preserves_bind; [apply preserves_load_actor|]. intros _.
  apply preserves_bind; [apply preserves_torch_load|]. intros b4.
  apply preserves_get_self. intros a' Ha'.
  apply preserves_lift_bind. intros o' Ho'.
  apply Adam_load_state_dict_groups in Ho'.
  intros w Hw. split; [|done]. simpl.
  destruct Ha' as (? & ? & ? & ? & ? & ?), Hw as (? & ? & ? & ? & ? & ?).
  repeat split; simpl; congruence.
Qed.

Lemma preserves_save f : preserves a0 (save f).
Proof.
  unfold save.
  repeat (apply preserves_bind; [apply preserves_torch_save|]; intros _).
  apply preserves_torch_save.
Qed.

Lemma preserves_act v st sigma eps : preserves a0 (act v st sigma eps).
Proof.
  intros w Hw. unfold act. destruct (Normal_sample _ _ _ _); [|done].
  by destruct (fn _ _).
Qed.

Lemma preserves_store s a r s' d : preserves a0 (store s a r s' d).
Proof. intros w Hw. done. Qed.

Lemma preserves_reset : preserves a0 reset.
Proof. intros w Hw. done. Qed.

Lemma preserves_polyak_refs w :
  same_refs a0 (self w) -> same_refs a0 (self (polyak_update w).2).
Proof.
  intros Hw. destruct (polyak_update_frame w) as (-> & _). done.
Qed.

(** Every call keeps the references of the agent. *)
Lemma invoke_same_refs c w :
  same_refs a0 (self w) -> same_refs a0 (self (invoke autograd adam_rule c w)).
Proof.
  intros Hw.
  destruct c; unfold invoke, forget;
    [ by apply preserves_act | by apply preserves_store
    | by apply preserves_reset | by apply preserves_update
    | by apply preserves_polyak_refs
    | by apply preserves_save | by apply preserves_load ].
Qed.

(** Every call other than [polyak_update] writes to online parameter
    objects only. *)
Lemma invoke_frame c w l :
  c <> PolyakUpdate -> same_refs a0 (self w) -> l ∉ online a0 ->
  mem (invoke autograd adam_rule c w) !! l = mem w !! l.
Proof.
  intros Hc Hw Hl.
  destruct c; unfold invoke, forget;
    [ by apply preserves_act | by apply preserves_store
    | by apply preserves_reset | by apply preserves_update
    | done | by apply preserves_save | by apply preserves_load ].
Qed.

Lemma run_same_refs cs w :
  same_refs a0 (self w) ->
  same_refs a0 (self (foldl (fun w c => invoke autograd adam_rule c w) w cs)).
Proof.
  revert w. induction cs as [|c cs IH]; intros w Hw; simpl; [done|].
  by apply IH, invoke_same_refs.
Qed.
End Frame.

(** ** The run of [update] past its guard *)

Section UpdateRun.
Variable autograd : (heap -> option tensor) -> heap -> loc -> list Q.
Variable adam_rule :
  Q -> nat -> list Q -> list Q -> list Q -> list Q -> list Q * list Q * list Q.

Lemma update_runs rng w batch :
  (batch_size (self w) <= Z.of_nat (ExpReplay_len (buffer (self w))))%Z ->
  ExpReplay_sample (buffer (self w)) (batch_size (self w)) rng = Return batch ->
  batch <> [] ->
  is_Some (fn (critic_loss (self w) batch (mem w)) (mem w)) ->
  update autograd adam_rule rng w =
    (Return (),
     let c := after_critic_step autograd adam_rule (self w) batch (mem w) in
     let a := after_actor_step autograd adam_rule (self w) batch c.2 in
     {| self := set_actor_optimizer a.1 (set_critic_optimizer c.1 (self w));
        mem := a.2; disk := disk w |}).
Proof.
  intros Hge Hs Hb [t Ht].
  unfold update, m_bind, get_self. cbn [fst snd].
  apply Z.ltb_ge in Hge. rewrite Hge.
  unfold lift. rewrite Hs.
  assert (make_batch batch = Return batch) as -> by (by destruct batch).
  unfold get_mem, evaluate. cbn [mem self with_mem with_self].
  rewrite Ht.
  unfold modify_mem, critic_optimizer_step. cbn [mem self with_mem with_self].
  unfold after_critic_step.
  destruct (Adam_step adam_rule (critic_optimizer (self w)) _) as [o h3] eqn:E3.
  cbn [mem self with_mem with_self fst snd].
  destruct (actor_loss_defined (self w) batch h3) as [t' Ht']. rewrite Ht'.
  unfold actor_optimizer_step. cbn [mem self with_mem with_self].
  unfold after_actor_step.
  cbn [actor_optimizer set_critic_optimizer with_optimizers].
  destruct (Adam_step adam_rule (actor_optimizer (self w)) _) as [o' h6] eqn:E6.
  reflexivity.
Qed.

(** Past the guard, a forward pass of the critic loss that fails stops
    [update] before anything is written. *)
Lemma update_stops_on_shape_error rng w batch :
  (batch_size (self w) <= Z.of_nat (ExpReplay_len (buffer (self w))))%Z ->
  ExpReplay_sample (buffer (self w)) (batch_size (self w)) rng = Return batch ->
  batch <> [] ->
  fn (critic_loss (self w) batch (mem w)) (mem w) = None ->
  update autograd adam_rule rng w = (Raise RuntimeError, w).
Proof.
  intros Hge Hs Hb Hn.
  unfold update, m_bind, get_self. cbn [fst snd].
  apply Z.ltb_ge in Hge. rewrite Hge.
  unfold lift. rewrite Hs.
  assert (make_batch batch = Return batch) as -> by (by destruct batch).
  unfold get_mem, evaluate. cbn [mem self with_mem with_self].
  by rewrite Hn.
Qed.

(** A negative [batch_size] passes the guard and is rejected by the
    sampler; [batch_size = 0] passes the guard and gives an empty sample,
    which the namedtuple constructor of line 117 rejects. *)
Lemma update_rejects_negative_batch_size rng w :
  (batch_size (self w) < 0)%Z ->
  update autograd adam_rule rng w = (Raise ValueError, w).
Proof.
  intros Hb.
  assert ((Z.of_nat (ExpReplay_len (buffer (self w))) <? batch_size (self w))%Z
          = false) as Hlen by (apply Z.ltb_ge; lia).
  unfold update, m_bind, get_self, lift, ExpReplay_sample. cbn [fst snd].
  rewrite Hlen. apply Z.ltb_lt in Hb. by rewrite Hb.
Qed.

Lemma update_rejects_zero_batch_size rng w :
  batch_size (self w) = 0%Z ->
  update autograd adam_rule rng w = (Raise TypeError, w).
Proof.
  intros Hb.
  assert ((Z.of_nat (ExpReplay_len (buffer (self w))) <? 0)%Z = false) as Hlen
    by (apply Z.ltb_ge; lia).
  unfold update, m_bind, get_self, lift, ExpReplay_sample. cbn [fst snd].
  rewrite Hb, Hlen. reflexivity.
Qed.
End UpdateRun.

(** ** The batch and the two losses *)

Lemma omap_length_all {A B} (f : A -> option B) (l : list A) :
  Forall (fun x => is_Some (f x)) l -> length (omap f l) = length l.
Proof.
  induction l as [|x l IH]; intros H; [done|].
  apply Forall_cons in H as [[y Hy] H]. csimpl. rewrite Hy. simpl.
  by rewrite IH.
Qed.

(** A sample of at least one and at most [len] transitions is returned:
    it holds that many stored transitions. *)
Lemma ExpReplay_sample_returns b n rng :
  (1 <= n <= Z.of_nat (ExpReplay_len b))%Z ->
  exists batch,
    ExpReplay_sample b n rng = Return batch /\
    length batch = Z.to_nat n /\ batch <> [] /\
    Forall (fun t => t ∈ memory b) batch.
Proof.
  intros [H1 H2]. unfold ExpReplay_sample.
  assert ((n <? 0)%Z = false) as -> by (apply Z.ltb_ge; lia).
  assert ((Z.of_nat (ExpReplay_len b) <? n)%Z = false) as -> by (apply Z.ltb_ge; lia).
  simpl. eexists. split; [reflexivity|].
  assert (Hlen : length (omap (fun k => memory b !! (rng k mod ExpReplay_len b)%nat)
                           (seq 0 (Z.to_nat n))) = Z.to_nat n).
  { rewrite omap_length_all; [by rewrite length_seq|].
    apply Forall_forall. intros k _. apply lookup_lt_is_Some_2.
    unfold ExpReplay_len in *. apply Nat.mod_upper_bound. lia. }
  split; [exact Hlen|]. split.
  - intros E. rewrite E in Hlen. simpl in Hlen. lia.
  - apply Forall_forall. intros t Ht.
    apply list_elem_of_omap in Ht as (k & _ & Hk).
    by eapply list_elem_of_lookup_2.
Qed.

(** The value of the actor loss of line 140, in any store. *)
Lemma actor_loss_value a batch (h : list Param) :
  fn (actor_loss a batch) h = Some (Vec [spec_actor_loss a h batch]).
Proof.
  simpl. rewrite decide_True by (by rewrite !length_fmap). simpl.
  unfold spec_actor_loss. do 4 f_equal.
  rewrite <- (list_fmap_compose state), zip_with_fmap_same, <- list_fmap_compose.
  reflexivity.
Qed.

(** The value of the critic loss of lines 131-132: the mean of the
    squared entries of [critic(states, actions) - y]. *)
Lemma critic_loss_value a batch (h : list Param) :
  fn (critic_loss a batch h) h =
    y ← fn (target_y a batch) h;
    advantage ← broadcast Qminus
      (Mat ((fun t => forward (critic a) (values h (parameters (critic a)))
                        (state t ++ action t)) <$> batch)) y;
    Some (Vec [mean (tmap (fun x => x * x) advantage)]).
Proof.
  unfold critic_loss.
  cbn [fn t_mean t_pow2 t_map t_sub t_binop detach call t_hstack const].
  cbn [mbind option_bind hstack].
  rewrite decide_True by (by rewrite !length_fmap).
  cbn [fmap option_fmap option_map mbind option_bind apply_module].
  rewrite zip_with_fmap_same, <- list_fmap_compose.
  unfold compose.
  destruct (fn (target_y a batch) h) as [y|]; [|done].
  cbn [mbind option_bind].
  by destruct (broadcast Qminus _ y).
Qed.

(** ** The target of [update] broadcasts over the batch *)

(** When the target critic has one output, the code's [y] is a square
    matrix: entry [(i, j)] adds the reward and discount of transition [j]
    to the bootstrap value of transition [i]. *)
Lemma target_y_broadcast a (h : list Param) batch :
  (forall x, length (forward (critic_target a)
                       (values h (parameters (critic_target a))) x) = 1%nat) ->
  fn (target_y a batch) h =
    Some (Mat ((fun ti =>
                 (fun tj => reward tj + gamma a * (1 - long (done tj)) *
                      hd 0 (forward (critic_target a)
                              (values h (parameters (critic_target a)))
                              (next_state ti ++
                               forward (actor_target a)
                                 (values h (parameters (actor_target a)))
                                 (next_state ti))))
                 <$> batch) <$> batch)).
Proof.
  intros Hone. simpl. rewrite decide_True by (by rewrite !length_fmap). simpl.
  rewrite <- !list_fmap_compose.
  rewrite zip_with_fmap_same, <- list_fmap_compose.
  set (G := (Qmult (gamma a) ∘ (fun x : Q => 1 - x) ∘ long ∘ done) <$> batch).
  set (q := fun t : Transition =>
         forward (critic_target a) (values h (parameters (critic_target a)))
           (next_state t ++ forward (actor_target a)
              (values h (parameters (actor_target a))) (next_state t))).
  rewrite (mapM_fmap_Some_ext _ _ (fun t => (fun x => x * hd 0 (q t)) <$> G)).
  2:{ intros t _. simpl. fold (q t).
      pose proof (Hone (next_state t ++ forward (actor_target a)
              (values h (parameters (actor_target a))) (next_state t))) as H1.
      fold (q t) in H1. destruct (q t) as [|v [|??]]; try discriminate.
      apply broadcast_row_one. }
  simpl.
  rewrite (mapM_fmap_Some_ext _ _
             (fun t => zip_with Qplus (reward <$> batch)
                         ((fun x => x * hd 0 (q t)) <$> G))).
  2:{ intros t _. apply broadcast_row_same. unfold G. by rewrite !length_fmap. }
  simpl. f_equal. f_equal.
  apply list_fmap_ext. intros _ t _.
  unfold G. rewrite <- list_fmap_compose, zip_with_fmap_same.
  apply list_fmap_ext. intros _ t' _. simpl. reflexivity.
Qed.

Lemma broadcast_row_one_l f a v :
  broadcast_row f [a] v = Some (f a <$> v).
Proof.
  unfold broadcast_row. destruct (decide _) as [E|E]; [|done].
  destruct v as [|b [|b' v']]; simpl in E; try discriminate. reflexivity.
Qed.

(** With one-output critics every forward pass of the critic loss
    succeeds, whatever the batch. *)
Lemma critic_loss_defined a (h : list Param) batch :
  (forall x, length (forward (critic_target a)
                       (values h (parameters (critic_target a))) x) = 1%nat) ->
  (forall x, length (forward (critic a)
                       (values h (parameters (critic a))) x) = 1%nat) ->
  is_Some (fn (critic_loss a batch h) h).
Proof.
  intros Ht Hc.
  pose proof (target_y_broadcast a h batch Ht) as Hy.
  unfold critic_loss.
  cbn [fn t_mean t_pow2 t_map t_sub t_binop detach call t_hstack const].
  rewrite Hy. cbn [mbind option_bind fmap option_fmap option_map hstack].
  destruct (decide (length (state <$> batch) = length (action <$> batch))) as [E|E];
    [|exfalso; apply E; by rewrite !length_fmap].
  cbn [mbind option_bind fmap option_fmap option_map apply_module broadcast].
  rewrite zip_with_fmap_same.
  rewrite decide_True by (by rewrite !length_fmap).
  set (rows := zip _ _).
  assert (is_Some (mapM (fun rr : list Q * list Q => broadcast_row Qminus rr.1 rr.2) rows))
    as [m Hm].
  { apply mapM_is_Some. apply Forall_forall. intros [r1 r2] Hin.
    unfold rows in Hin. apply elem_of_zip_l in Hin.
    apply list_elem_of_fmap in Hin as (x & -> & _). simpl.
    specialize (Hc x).
    destruct (forward (critic a) _ _) as [|c [|??]]; try discriminate.
    rewrite broadcast_row_one_l. eauto. }
  rewrite Hm. simpl. eauto.
Qed.

(** ** Checkpoints *)

Ltac artifact_ne :=
  let H := fresh in
  intros H; apply (inj (String.append _)) in H; discriminate.

Lemma artifacts_NoDup f : NoDup (artifacts f).
Proof.
  unfold artifacts.
  repeat (apply NoDup_cons_2; [rewrite ?not_elem_of_cons; repeat split;
                               try artifact_ne; apply not_elem_of_nil|]).
  apply NoDup_nil_2.
Qed.

Lemma save_lookups f w :
  let d := disk (save f w).2 in
  d !! (f +:+ "_critic")%string = Some (state_dict (critic (self w)) (mem w)) /\
  d !! (f +:+ "_critic_hyp_params")%string =
    Some (Adam_state_dict (critic_optimizer (self w))) /\
  d !! (f +:+ "_actor")%string = Some (state_dict (actor (self w)) (mem w)) /\
  d !! (f +:+ "_actor_hyp_params")%string =
    Some (Adam_state_dict (actor_optimizer (self w))) /\
  (forall name, name ∉ artifacts f -> d !! name = disk w !! name).
Proof.
  unfold save, m_bind, torch_save. cbn [fst snd disk with_disk self mem].
  repeat split.
  - rewrite !lookup_insert_ne by artifact_ne. apply lookup_insert_eq.
  - rewrite !lookup_insert_ne by artifact_ne. apply lookup_insert_eq.
  - rewrite !lookup_insert_ne by artifact_ne. apply lookup_insert_eq.
  - apply lookup_insert_eq.
  - intros name Hn. unfold artifacts in Hn.
    rewrite !not_elem_of_cons in Hn. destruct Hn as (? & ? & ? & ? & _).
    by rewrite !lookup_insert_ne by done.
Qed.

(** A load that returns has found all four artifacts. *)
Lemma load_returns_inv f w x :
  (load f w).1 = Return x ->
  Forall (fun name => is_Some (disk w !! name)) (artifacts f).
Proof.
  unfold load, m_bind, torch_load, artifacts.
  destruct (disk w !! (f +:+ "_critic")%string) as [b1|] eqn:E1; [|discriminate].
  unfold load_state_dict at 1.
  destruct b1 as [sd1|]; [|discriminate].
  destruct (copy_params _ sd1 (mem w)) as [[] h1]; [|discriminate].
  cbn [disk with_mem].
  destruct (disk w !! (f +:+ "_critic_hyp_params")%string) as [b2|] eqn:E2;
    [|discriminate].
  unfold get_self, lift. cbn [fst snd self with_mem].
  destruct (Adam_load_state_dict _ b2) as [o2|]; [|discriminate].
  unfold modify_self. cbn [disk with_self with_mem].
  destruct (disk w !! (f +:+ "_actor")%string) as [b3|] eqn:E3; [|discriminate].
  unfold load_state_dict.
  destruct b3 as [sd3|]; [|discriminate].
  destruct (copy_params _ sd3 _) as [[] h2]; [|discriminate].
  cbn [disk with_self with_mem].
  destruct (disk w !! (f +:+ "_actor_hyp_params")%string) as [b4|] eqn:E4;
    [|discriminate].
  intros _. repeat constructor; eauto.
Qed.

(** ** Consistency is kept by every call *)

Lemma foldl_alter_length (f : nat -> Param -> Param) ls (h : list Param) :
  length (foldl (fun h l => alter (f l) l h) h ls) = length h.
Proof.
  revert h. induction ls as [|k ls IH]; intros h; simpl; [done|].
  by rewrite IH, length_alter.
Qed.

Section Maintain.
Variable autograd : (heap -> option tensor) -> heap -> loc -> list Q.
Variable adam_rule :
  Q -> nat -> list Q -> list Q -> list Q -> list Q -> list Q * list Q * list Q.
Variable a0 : DDPG.
Variable n : nat.

Lemma adam_loop_lengths rate ps sts (h : list Param) :
  length (adam_loop adam_rule rate ps sts h).1 = length sts /\
  length (adam_loop adam_rule rate ps sts h).2 = length h.
Proof.
  revert sts h. induction ps as [|k ps IH]; intros sts h; simpl; [done|].
  destruct sts as [|st sts]; [done|].
  destruct (h !! k) as [p|].
  - destruct (adam_param adam_rule rate st p) as [st' p'].
    destruct (IH sts (<[k:=p']> h)) as [H1 H2].
    destruct (adam_loop _ _ _ _ (<[k:=p']> h)) as [r h']. simpl in *.
    by rewrite H1, H2, length_insert.
  - destruct (IH sts h) as [H1 H2].
    destruct (adam_loop _ _ _ _ h) as [r h']. simpl in *. by rewrite H1.
Qed.

Lemma Adam_step_lengths o (h : list Param) :
  length (opt_state (Adam_step adam_rule o h).1) = length (opt_state o) /\
  length (Adam_step adam_rule o h).2 = length h.
Proof.
  unfold Adam_step.
  pose proof (adam_loop_lengths (lr o) (param_groups o) (opt_state o) h) as H.
  by destruct (adam_loop _ _ _ _ _).
Qed.

Lemma maintains_ret {A} (x : A) : maintains a0 n (m_ret x).
Proof. by intros w Hw. Qed.

Lemma maintains_bind {A B} (m : method A) (k : A -> method B) :
  maintains a0 n m -> (forall x, maintains a0 n (k x)) -> maintains a0 n (m_bind m k).
Proof.
  intros Hm Hk w Hw. unfold m_bind. specialize (Hm w Hw).
  destruct (m w) as [[x|e] w1]; simpl in *; [|done]. by apply Hk.
Qed.

Lemma maintains_get_self {B} (k : DDPG -> method B) :
  (forall a, same_refs a0 a -> maintains a0 n (k a)) ->
  maintains a0 n (m_bind get_self k).
Proof. intros Hk w Hw. unfold m_bind, get_self. apply Hk; [apply Hw|done]. Qed.

Lemma maintains_lift_bind {A B} (r : result A) (k : A -> method B) :
  (forall x, r = Return x -> maintains a0 n (k x)) ->
  maintains a0 n (m_bind (lift r) k).
Proof.
  intros Hk w Hw. unfold m_bind, lift. destruct r as [x|e]; [|done]. by apply Hk.
Qed.

Lemma maintains_get_mem : maintains a0 n get_mem.
Proof. by intros w Hw. Qed.

Lemma maintains_evaluate x : maintains a0 n (evaluate x).
Proof. intros w Hw. unfold evaluate. by destruct (fn x (mem w)). Qed.

Lemma maintains_modify_mem (f : list Param -> list Param) :
  (forall h, length (f h) = length h) -> maintains a0 n (modify_mem f).
Proof.
  intros Hf w (H1 & H2 & H3 & H4).
  split; [done|]. split; [|done]. simpl. by rewrite Hf.
Qed.

Lemma maintains_torch_save b name : maintains a0 n (torch_save b name).
Proof. by intros w Hw. Qed.

Lemma maintains_torch_load name : maintains a0 n (torch_load name).
Proof. intros w Hw. unfold torch_load. by destruct (disk w !! name). Qed.

Lemma maintains_load_state_dict m b : maintains a0 n (load_state_dict m b).
Proof.
  intros w (H1 & H2 & H3 & H4). unfold load_state_dict. destruct b as [sd|]; [|done].
  pose proof (copy_params_length (parameters (m (self w))) sd (mem w)) as Hlen.
  destruct (copy_params _ sd (mem w)) as [[] h]; simpl in *;
    (split; [done|]); (split; [|done]); simpl; by rewrite Hlen.
Qed.

Lemma maintains_critic_step : maintains a0 n (critic_optimizer_step adam_rule).
Proof.
  intros w ((? & ? & ? & ? & ? & Hgc) & Hn & Hsa & Hsc). unfold critic_optimizer_step.
  pose proof (Adam_step_groups adam_rule (critic_optimizer (self w)) (mem w)) as Hg.
  destruct (Adam_step_lengths (critic_optimizer (self w)) (mem w)) as [Hs Hm].
  destruct (Adam_step _ _ _) as [o h]. unfold well_kept. simpl in *.
  split; [|split; [lia|split; simpl; congruence]].
  repeat split; simpl; try done; congruence.
Qed.

Lemma maintains_actor_step : maintains a0 n (actor_optimizer_step adam_rule).
Proof.
  intros w ((? & ? & ? & ? & Hga & ?) & Hn & Hsa & Hsc). unfold actor_optimizer_step.
  pose proof (Adam_step_groups adam_rule (actor_optimizer (self w)) (mem w)) as Hg.
  destruct (Adam_step_lengths (actor_optimizer (self w)) (mem w)) as [Hs Hm].
  destruct (Adam_step _ _ _) as [o h]. unfold well_kept. simpl in *.
  split; [|split; [lia|split; simpl; congruence]].
  repeat split; simpl; try done; congruence.
Qed.

Lemma maintains_update rng : maintains a0 n (update autograd adam_rule rng).
Proof.
  unfold update. apply maintains_get_self. intros a Ha.
  destruct (_ <? _)%Z; [apply maintains_ret|].
  apply maintains_lift_bind. intros transitions _.
  apply maintains_lift_bind. intros batch _.
  apply maintains_bind; [apply maintains_get_mem|]. intros h0.
  apply maintains_bind; [apply maintains_evaluate|]. intros _.
  apply maintains_bind.
  { apply maintains_modify_mem. intros h. apply foldl_alter_length. }
  intros _. apply maintains_bind.
  { apply maintains_modify_mem. intros h. apply foldl_alter_length. }
  intros _. apply maintains_bind; [apply maintains_critic_step|]. intros _.
  apply maintains_bind; [apply maintains_get_mem|]. intros h3.
  apply maintains_bind; [apply maintains_evaluate|]. intros _.
  apply maintains_bind.
  { apply maintains_modify_mem. intros h. apply foldl_alter_length. }
  intros _. apply maintains_bind.
  { apply maintains_modify_mem. intros h. apply foldl_alter_length. }
  intros _. apply maintains_actor_step.
Qed.

Lemma Adam_load_state_dict_length o b o' :
  Adam_load_state_dict o b = Return o' ->
  param_groups o' = param_groups o /\
  length (opt_state o') = length (param_groups o).
Proof.
  destruct b as [|rate st]; simpl; [done|].
  destruct (decide _); [|done]. by intros [= <-].
Qed.

Lemma maintains_load f : maintains a0 n (load f).
Proof.
  unfold load.
  apply maintains_bind; [apply maintains_torch_load|]. intros b1.
  apply maintains_bind; [apply maintains_load_state_dict|]. intros _.
  apply maintains_bind; [apply maintains_torch_load|]. intros b2.
  apply maintains_get_self. intros a Ha.
  apply maintains_lift_bind. intros o Ho.
  apply Adam_load_state_dict_length in Ho as [Hg Hl].
  apply maintains_bind.
  { intros w ((? & ? & ? & ? & ? & ?) & Hn & Hsa & Hsc).
    destruct Ha as (? & ? & ? & ? & ? & ?).
    split; [|split; [done|split; simpl; congruence]].
    repeat split; simpl; try done; congruence. }
  intros _.
  apply maintains_bind; [apply maintains_torch_load|]. intros b3.
  apply maintains_bind; [apply maintains_load_state_dict|]. intros _.
  apply maintains_bind; [apply maintains_torch_load|]. intros b4.
  apply maintains_get_self. intros a' Ha'.
  apply maintains_lift_bind. intros o' Ho'.
  apply Adam_load_state_dict_length in Ho' as [Hg' Hl'].
  intros w ((? & ? & ? & ? & ? & ?) & Hn & Hsa & Hsc).
  destruct Ha' as (? & ? & ? & ? & ? & ?).
  split; [|split; [done|split; simpl; congruence]].
  repeat split; simpl; try done; congruence.
Qed.

Lemma maintains_save f : maintains a0 n (save f).
Proof.
  unfold save.
  repeat (apply maintains_bind; [apply maintains_torch_save|]; intros _).
  apply maintains_torch_save.
Qed.

Lemma maintains_act v st sigma eps : maintains a0 n (act v st sigma eps).
Proof.
  intros w Hw. unfold act. destruct (Normal_sample _ _ _ _); [|done].
  by destruct (fn _ _).
Qed.

Lemma maintains_polyak_update : maintains a0 n polyak_update.
Proof.
  intros w (H1 & H2 & H3 & H4).
  destruct (polyak_update_frame w) as (Hs & _ & g & Hm).
  unfold well_kept. rewrite Hs, Hm, length_app.
  split; [done|]. split; [lia|]. by split.
Qed.

Lemma invoke_maintains c w :
  well_kept a0 n w -> well_kept a0 n (invoke autograd adam_rule c w).
Proof.
  intros Hw.
  destruct c; unfold invoke, forget;
    [ by apply maintains_act | done | done | by apply maintains_update
    | by apply maintains_polyak_update
    | by apply maintains_save | by apply maintains_load ].
Qed.
End Maintain.

Section Reachable.
Variable autograd : (heap -> option tensor) -> heap -> loc -> list Q.
Variable adam_rule :
  Q -> nat -> list Q -> list Q -> list Q -> list Q -> list Q * list Q * list Q.

Lemma consistent_well_kept w : consistent w -> well_kept (self w) (length (mem w)) w.
Proof.
  intros [Hnd Hal Hga Hgc Hla Hlc].
  split; [by repeat split|]. split; [done|]. split.
  - by rewrite Hga.
  - by rewrite Hgc.
Qed.

Lemma well_kept_consistent w w' :
  consistent w -> well_kept (self w) (length (mem w)) w' -> consistent w'.
Proof.
  intros [Hnd Hal Hga Hgc Hla Hlc] ((Ea & Ec & _ & _ & Ega & Egc) & Hn & Hsa & Hsc).
  constructor.
  - unfold online. by rewrite Ea, Ec.
  - unfold online. rewrite Ea, Ec. eapply Forall_impl; [exact Hal|]. simpl. lia.
  - by rewrite Ega, Ea.
  - by rewrite Egc, Ec.
  - by rewrite Hsa, Ea, Hga.
  - by rewrite Hsc, Ec, Hgc.
Qed.

(** Every call keeps a consistent world consistent. *)
Lemma invoke_consistent c w :
  consistent w -> consistent (invoke autograd adam_rule c w).
Proof.
  intros Hw. apply (well_kept_consistent w); [done|].
  by apply invoke_maintains, consistent_well_kept.
Qed.

(** The constructor builds a consistent world from two networks that
    share no parameter object. *)
Lemma init_consistent Actor Critic actor_lr critic_lr disc_rate batch (h : list Param) d w :
  NoDup (parameters Actor ++ parameters Critic) ->
  Forall (fun l => (l < length h)%nat) (parameters Actor ++ parameters Critic) ->
  __init__ Actor Critic actor_lr critic_lr disc_rate batch h d = Return w ->
  consistent w.
Proof.
  intros Hnd Hal Hinit. unfold __init__ in Hinit.
  destruct (Adam_new (parameters Actor) actor_lr) as [oa|] eqn:Ea; [|discriminate].
  destruct (Adam_new (parameters Critic) critic_lr) as [oc|] eqn:Ec; [|discriminate].
  apply Adam_new_inv in Ea as (Ea & _ & Esa). apply Adam_new_inv in Ec as (Ec & _ & Esc).
  unfold deepcopy in Hinit. injection Hinit as <-.
  constructor; simpl; try done.
  - eapply Forall_impl; [exact Hal|]. simpl. intros l Hl. rewrite !length_app. lia.
  - by rewrite Esa, length_fmap.
  - by rewrite Esc, length_fmap.
Qed.
(** Every world reached from a consistent one is consistent. *)
Lemma run_consistent cs w :
  consistent w ->
  consistent (foldl (fun w c => invoke autograd adam_rule c w) w cs).
Proof.
  revert w. induction cs as [|c cs IH]; intros w Hw; simpl; [done|].
  by apply IH, invoke_consistent.
Qed.
End Reachable.

(** * The claims *)

(** C1: [polyak_update] is specified to write [tau * source + (1 - tau) * target]
    back into every target parameter.  The code computes the blend into the
    loop's local name and never stores it: the agent and every parameter
    object that existed before the call are unchanged, for every world (the
    store only grows by the dropped tensors).  On [drifted_world], where
    the online critic weights are 1 and the target weights are 0, the call
    returns normally and the target weights are still 0, while the
    specified value [0.05 * 1 + 0.95 * 0] is not 0. *)
Theorem polyak_update_discards_blend :
  (forall w,
     self (polyak_update w).2 = self w /\
     exists garbage, mem (polyak_update w).2 = mem w ++ garbage) /\
  (polyak_update drifted_world).1 = Return () /\
  values (mem drifted_world) (parameters (critic (self drifted_world))) = [[1; 1]] /\
  values (mem drifted_world) (parameters (critic_target (self drifted_world)))
    = [[0; 0]] /\
  values (mem (polyak_update drifted_world).2)
         (parameters (critic_target (self (polyak_update drifted_world).2)))
    = [[0; 0]] /\
  values (mem (polyak_update drifted_world).2)
         (parameters (actor_target (self (polyak_update drifted_world).2)))
    = [[0]] /\
  ~ (0.05 * 1 + (1 - 0.05) * 0 == 0).
Proof.
  split.
  - intros w. destruct (polyak_update_frame w) as (Hs & _ & Hm). by split.
  - repeat split; try reflexivity. intros H. discriminate H.
Qed.

Section Claims.
Variable autograd : (heap -> option tensor) -> heap -> loc -> list Q.
Variable adam_rule :
  Q -> nat -> list Q -> list Q -> list Q -> list Q -> list Q * list Q * list Q.

(** C2: when the replay buffer holds fewer than [batch_size] transitions,
    [update] returns normally and the whole world (agent, parameter
    store with values and gradients, optimizer states, disk) is the one
    it was called in. *)
Theorem update_noop_below_batch_size rng w :
  (Z.of_nat (ExpReplay_len (buffer (self w))) < batch_size (self w))%Z ->
  update autograd adam_rule rng w = (Return (), w).
Proof.
  intros Hlt. unfold update, m_bind, get_self. simpl.
  apply Z.ltb_lt in Hlt. rewrite Hlt. reflexivity.
Qed.
End Claims.

Lemma update_noop_below_batch_size_witness :
  (Z.of_nat (ExpReplay_len (buffer (self ex_world))) < batch_size (self ex_world))%Z /\
  update ex_autograd ex_rule ex_rng ex_world = (Return (), ex_world).
Proof.
  assert (H : (Z.of_nat (ExpReplay_len (buffer (self ex_world)))
               < batch_size (self ex_world))%Z) by reflexivity.
  split; [exact H|].
  exact (update_noop_below_batch_size ex_autograd ex_rule ex_rng ex_world H).
Defined.

(** C3: the regression target is specified per transition,
    [y = reward + gamma * (1 - done) * critic_target(next_state, actor_target(next_state))],
    and the critic loss as the mean squared error against it.  On the
    batch [ex_t1; ex_t2] that [update] samples from [ex_world_stored], the
    code's target is the 2 x 2 matrix [[3; 0]; [5; 0]] (rewards and
    discounts of one transition combined with the bootstrap value of the
    other) where the specification gives 3 and 0, and the loss the critic
    is trained on is 9/2 where the specified mean squared error is 5. *)
Theorem critic_target_mixes_transitions :
  ExpReplay_sample (buffer (self ex_world_stored))
    (batch_size (self ex_world_stored)) ex_rng = Return [ex_t1; ex_t2] /\
  mem ex_world_stored = mem ex_world /\
  (exists y,
     fn (target_y ex_agent [ex_t1; ex_t2]) (mem ex_world) = Some (Mat y) /\
     Forall2 (Forall2 Qeq) y [[3; 0]; [5; 0]]) /\
  Forall2 (Forall2 Qeq)
    (spec_target ex_agent (mem ex_world) <$> [ex_t1; ex_t2]) [[3]; [0]] /\
  (exists loss,
     fn (critic_loss ex_agent [ex_t1; ex_t2] (mem ex_world)) (mem ex_world)
       = Some (Vec [loss]) /\
     loss == 9 # 2) /\
  spec_critic_loss ex_agent (mem ex_world) [ex_t1; ex_t2] == 5.
Proof.
  split; [reflexivity|]. split; [reflexivity|].
  split; [|split; [|split]].
  - eexists. split; [vm_compute; reflexivity|].
    repeat constructor.
  - vm_compute. repeat constructor.
  - eexists. split; [vm_compute; reflexivity|]. reflexivity.
  - reflexivity.
Qed.

(** C10: whatever the constructor arguments, an agent that [__init__]
    returns has [tau = 0.05] and an empty replay buffer of capacity
    10000, and takes [gamma] and [batch_size] from the arguments; the
    constructor raises only [ValueError], for a negative learning rate or
    a network without parameters. *)
Theorem init_fixes_tau_and_capacity
    Actor Critic actor_lr critic_lr disc_rate batch (h : heap) d :
  match __init__ Actor Critic actor_lr critic_lr disc_rate batch h d with
  | Return w =>
      tau (self w) = 0.05 /\
      capacity (buffer (self w)) = 10000%nat /\
      memory (buffer (self w)) = [] /\
      gamma (self w) = disc_rate /\ batch_size (self w) = batch
  | Raise e =>
      e = ValueError /\
      (actor_lr < 0 \/ critic_lr < 0 \/
       parameters Actor = [] \/ parameters Critic = [])
  end.
Proof.
  unfold __init__, Adam_new, Qltb.
  destruct (Qle_bool 0 actor_lr) eqn:Ha; simpl.
  2:{ split; [done|left]. apply Qnot_le_lt. intros H.
      apply Qle_bool_iff in H. congruence. }
  destruct (parameters Actor) eqn:EA; [split; auto|].
  destruct (Qle_bool 0 critic_lr) eqn:Hc; simpl.
  2:{ split; [done|right; left]. apply Qnot_le_lt. intros H.
      apply Qle_bool_iff in H. congruence. }
  destruct (parameters Critic) eqn:EC; [split; auto|].
  simpl. done.
Qed.

(** C4, as the code has it: [load] raises whenever one of the four
    artifacts is missing, and restores artifact by artifact in the order
    [_critic], [_critic_hyp_params], [_actor], [_actor_hyp_params].  When
    [_critic] is missing nothing is changed; when a later artifact is the
    first missing one and the earlier ones load, the exception is
    [FileNotFoundError] and the world is the one in which exactly the
    earlier artifacts have been restored. *)
Theorem load_restores_in_order f w :
  (forall name, name ∈ artifacts f -> disk w !! name = None ->
     exists e, (load f w).1 = Raise e) /\
  (disk w !! (f +:+ "_critic")%string = None ->
     load f w = (Raise FileNotFoundError, w)) /\
  (forall sd h1,
     disk w !! (f +:+ "_critic")%string = Some (ModuleState sd) ->
     copy_params (parameters (critic (self w))) sd (mem w) = (true, h1) ->
     (disk w !! (f +:+ "_critic_hyp_params")%string = None ->
        load f w = (Raise FileNotFoundError, with_mem h1 w)) /\
     (forall rate st,
        disk w !! (f +:+ "_critic_hyp_params")%string
          = Some (OptimizerState rate st) ->
        length st = length (param_groups (critic_optimizer (self w))) ->
        let o := {| param_groups := param_groups (critic_optimizer (self w));
                    lr := rate; opt_state := st |} in
        let w2 := with_self (set_critic_optimizer o (self w)) (with_mem h1 w) in
        (disk w !! (f +:+ "_actor")%string = None ->
           load f w = (Raise FileNotFoundError, w2)) /\
        (forall sd' h2,
           disk w !! (f +:+ "_actor")%string = Some (ModuleState sd') ->
           copy_params (parameters (actor (self w))) sd' h1 = (true, h2) ->
           disk w !! (f +:+ "_actor_hyp_params")%string = None ->
           load f w = (Raise FileNotFoundError, with_mem h2 w2)))).
Proof.
  split; [|split; [|intros sd h1 L1 E1; split; [|intros rate st L2 Hlen o w2; split]]].
  - intros name Hin Hnone.
    destruct (load f w).1 as [x|e] eqn:E; [|eauto].
    apply load_returns_inv in E. rewrite Forall_forall in E.
    destruct (E name Hin) as [b Hb]. congruence.
  - intros L1. unfold load, m_bind, torch_load. by rewrite L1.
  - intros L2. unfold load, m_bind, torch_load. rewrite L1.
    unfold load_state_dict. rewrite E1. cbn [disk with_mem]. by rewrite L2.
  - intros L3. unfold load, m_bind, torch_load. rewrite L1.
    unfold load_state_dict. rewrite E1. cbn [disk with_mem self]. rewrite L2.
    unfold get_self, lift, Adam_load_state_dict. cbn [fst snd self with_mem].
    rewrite decide_True by done.
    unfold modify_self. cbn [disk with_self with_mem]. by rewrite L3.
  - intros sd' h2 L3 E2 L4. unfold load, m_bind, torch_load. rewrite L1.
    unfold load_state_dict. rewrite E1. cbn [disk with_mem self]. rewrite L2.
    unfold get_self, lift, Adam_load_state_dict. cbn [fst snd self with_mem].
    rewrite decide_True by done.
    unfold modify_self. cbn [disk with_self with_mem]. rewrite L3.
    simpl. rewrite E2. simpl. by rewrite L4.
Qed.

Lemma load_restores_in_order_witness :
  disk partial_checkpoint !! ("ckpt" +:+ "_critic")%string
    = Some (ModuleState [[7; 7]]) /\
  disk partial_checkpoint !! ("ckpt" +:+ "_critic_hyp_params")%string = None /\
  load "ckpt" partial_checkpoint =
    (Raise FileNotFoundError,
     with_mem [ {| data := [1]; grad := None |}; {| data := [7; 7]; grad := None |};
                {| data := [1]; grad := None |}; {| data := [1; 1]; grad := None |} ]
              partial_checkpoint).
Proof.
  assert (L1 : disk partial_checkpoint !! ("ckpt" +:+ "_critic")%string
               = Some (ModuleState [[7; 7]])) by reflexivity.
  assert (L2 : disk partial_checkpoint !! ("ckpt" +:+ "_critic_hyp_params")%string
               = None) by reflexivity.
  split; [exact L1|]. split; [exact L2|].
  refine (proj1 (proj2 (proj2 (load_restores_in_order "ckpt" partial_checkpoint))
                   [[7; 7]] _ L1 _) L2).
  reflexivity.
Defined.

(** C4, as stated, fails: with only the [_critic] artifact on disk, [load]
    raises [FileNotFoundError] after it has overwritten the critic's
    parameters ([1; 1] before the call, [7; 7] after it). *)
Lemma load_is_not_atomic :
  (load "ckpt" partial_checkpoint).1 = Raise FileNotFoundError /\
  values (mem partial_checkpoint)
         (parameters (critic (self partial_checkpoint))) = [[1; 1]] /\
  values (mem (load "ckpt" partial_checkpoint).2)
         (parameters (critic (self (load "ckpt" partial_checkpoint).2))) = [[7; 7]].
Proof. vm_compute. done. Qed.

(** C5, as the code has it: with zero noise level the outcome depends on
    whether [torch.distributions] validates its arguments.  With
    validation (the default) [act(state, 0)] raises [ValueError] for every
    state, since [Normal] requires a positive scale.  Without validation
    it returns, every component lies in [-2, 2], the world is unchanged,
    and the value is numerically [clip(actor(state))] whatever the random
    draw: two calls with the same state and parameters agree. *)
Theorem act_without_noise st eps1 eps2 w :
  act true st 0 eps1 w = (Raise ValueError, w) /\
  exists out1 out2,
    act false st 0 eps1 w = (Return (Vec out1), w) /\
    act false st 0 eps2 w = (Return (Vec out2), w) /\
    in_bounds (-2.0) 2.0 out1 /\
    Forall2 Qeq out1 out2 /\
    Forall2 Qeq out1 (clip (-2.0) 2.0 <$> actor_output w st).
Proof.
  split; [reflexivity|].
  eexists _, _. split; [by apply act_returns|]. split; [by apply act_returns|].
  split; [|split].
  - apply clipped_in_bounds.
  - apply Forall2_fmap_2, Forall_Forall2_diag, Forall_true. intros x.
    apply clip_proper. ring.
  - rewrite <- (list_fmap_id (actor_output w st)) at 1.
    rewrite <- list_fmap_compose.
    apply Forall2_fmap_2, Forall_Forall2_diag, Forall_true. intros x. simpl.
    apply clip_proper. ring.
Qed.

(** C5, as stated, fails: under the default argument validation
    [act(state, sigma=0)] does not return. *)
Lemma act_zero_sigma_raises :
  act true [1] 0 0 ex_world = (Raise ValueError, ex_world).
Proof. reflexivity. Qed.

(** C9, as the code has it: for every state, every noise level
    [sigma > 0] and every draw, [act] returns
    [clip(actor(state) + noise)] with [noise = sigma * eps] added to every
    component, every component lies in [-2, 2], and the result is a plain
    tensor value: the world, with all stored gradients, is unchanged.  For
    [sigma <= 0] under argument validation, and for [sigma < 0] without
    it, [act] raises and the world is unchanged. *)
Theorem act_clamps_noisy_action validate_args st sigma eps w :
  (0 < sigma ->
   act validate_args st sigma eps w =
     (Return (Vec ((fun x => clip (-2.0) 2.0 (x + (0 + sigma * eps)))
                     <$> actor_output w st)), w) /\
   in_bounds (-2.0) 2.0
     ((fun x => clip (-2.0) 2.0 (x + (0 + sigma * eps))) <$> actor_output w st)) /\
  (sigma <= 0 -> act true st sigma eps w = (Raise ValueError, w)) /\
  (sigma < 0 -> act false st sigma eps w = (Raise RuntimeError, w)).
Proof.
  split; [|split].
  - intros Hpos. split.
    + by apply act_returns, Normal_sample_positive.
    + apply clipped_in_bounds.
  - intros H. unfold act. by rewrite Normal_sample_validated.
  - intros H. unfold act. by rewrite Normal_sample_negative.
Qed.

Lemma act_clamps_noisy_action_witness :
  0 < 0.5 /\
  act true [5] 0.5 3 ex_world = (Return (Vec [2.0]), ex_world) /\
  in_bounds (-2.0) 2.0 [2.0].
Proof.
  assert (H : 0 < 0.5) by reflexivity.
  split; [exact H|].
  exact (proj1 (act_clamps_noisy_action true [5] 0.5 3 ex_world) H).
Defined.

(** C9, as stated, fails for noise levels that are not positive: with
    [sigma = 0] under the default validation, and with a negative [sigma]
    under either setting, [act] raises and returns no action. *)
Lemma act_rejects_nonpositive_sigma :
  act true [2] 0 (1 # 2) drifted_world = (Raise ValueError, drifted_world) /\
  act true [2] (-1) (1 # 2) drifted_world = (Raise ValueError, drifted_world) /\
  act false [2] (-1) (1 # 2) drifted_world = (Raise RuntimeError, drifted_world).
Proof. repeat split. Qed.

Section TargetClaims.
Variable autograd : (heap -> option tensor) -> heap -> loc -> list Q.
Variable adam_rule :
  Q -> nat -> list Q -> list Q -> list Q -> list Q -> list Q * list Q * list Q.

(** C6: in the world that [__init__] returns, each target network has
    the architecture and the parameter values of its online network, in
    parameter objects of its own: overwriting any online parameter
    object leaves the target values as they are.  Afterwards, in every
    world reached by any sequence of calls, every call other than
    [polyak_update] (in particular [update]) keeps the target networks
    and leaves every target parameter object, value and gradient,
    unchanged. *)
Theorem targets_change_only_by_polyak_update
    Actor Critic actor_lr critic_lr disc_rate batch (h : heap) d w :
  Forall (fun l => (l < length h)%nat) (parameters Actor ++ parameters Critic) ->
  __init__ Actor Critic actor_lr critic_lr disc_rate batch h d = Return w ->
  (forward (actor_target (self w)) = forward (actor (self w)) /\
   values (mem w) (parameters (actor_target (self w))) =
     values (mem w) (parameters (actor (self w))) /\
   forward (critic_target (self w)) = forward (critic (self w)) /\
   values (mem w) (parameters (critic_target (self w))) =
     values (mem w) (parameters (critic (self w)))) /\
  (forall l p, l ∈ online (self w) ->
     values (<[l:=p]> (mem w)) (targets (self w)) =
       values (mem w) (targets (self w))) /\
  (forall cs c, c <> PolyakUpdate ->
     let w1 := foldl (fun w c => invoke autograd adam_rule c w) w cs in
     let w2 := invoke autograd adam_rule c w1 in
     actor_target (self w2) = actor_target (self w1) /\
     critic_target (self w2) = critic_target (self w1) /\
     forall l, l ∈ targets (self w1) -> mem w2 !! l = mem w1 !! l).
Proof.
  intros Hal Hinit.
  apply init_world in Hinit as (Ha & Hc & Hga & Hgc & Hat & Hct & Hm).
  apply Forall_app in Hal as [HalA HalC].
  destruct (deepcopy_spec Actor h HalA) as (Hf1 & Hv1 & Hfresh1 & g1 & Hh1).
  set (h1 := (deepcopy Actor h).2) in *.
  assert (HalC1 : Forall (fun l => (l < length h1)%nat) (parameters Critic)).
  { rewrite Hh1, length_app. eapply Forall_impl; [exact HalC|]. simpl. lia. }
  destruct (deepcopy_spec Critic h1 HalC1) as (Hf2 & Hv2 & Hfresh2 & g2 & Hh2).
  assert (Hapart : forall l, l ∈ targets (self w) -> l ∉ online (self w)).
  { unfold targets, online. rewrite Ha, Hc, Hat, Hct. intros l Hl Hon.
    rewrite Forall_forall in HalA, HalC.
    assert (l < length h)%nat as Hlt.
    { apply elem_of_app in Hon as [?|?]; [by apply HalA | by apply HalC]. }
    apply elem_of_app in Hl as [Hl|Hl].
    - apply Hfresh1 in Hl. lia.
    - apply Hfresh2 in Hl. fold h1 in Hl. rewrite Hh1, length_app in Hl. lia. }
  assert (Hsep : separated (self w)).
  { unfold separated. split; [|split; [|exact Hapart]].
    - rewrite Hga. unfold online. rewrite Ha.
      intros l Hl. apply elem_of_app. by left.
    - rewrite Hgc. unfold online. rewrite Hc.
      intros l Hl. apply elem_of_app. by right. }
  split; [|split].
  - rewrite Hat, Hct, Ha, Hc, Hm. fold h1. repeat split; try done.
    + rewrite Hh2. rewrite !values_app_allocated.
      * rewrite Hv1. symmetry. rewrite Hh1. by apply values_app_allocated.
      * rewrite Hh1, length_app. eapply Forall_impl; [exact HalA|]. simpl. lia.
      * apply Forall_forall. intros l Hl. by apply Hfresh1.
    + rewrite Hv2. rewrite Hh2. by rewrite values_app_allocated.
  - intros l p Hl. apply values_ext. intros l' Hl'.
    apply list_lookup_insert_ne. intros ->. by eapply Hapart.
  - intros cs c Hcne w1 w2.
    assert (same_refs (self w) (self w1)) as Hw1.
    { apply (run_same_refs autograd adam_rule (self w) Hsep).
      apply same_refs_refl. }
    assert (same_refs (self w) (self w2)) as Hw2
      by (by apply (invoke_same_refs autograd adam_rule (self w) Hsep)).
    destruct Hw1 as (E1 & E2 & E3 & E4 & _), Hw2 as (_ & _ & E3' & E4' & _).
    split; [congruence|]. split; [congruence|].
    intros l Hl. apply (invoke_frame autograd adam_rule (self w) Hsep); try done.
    + by apply (run_same_refs autograd adam_rule (self w) Hsep), same_refs_refl.
    + apply Hapart. unfold targets in *. by rewrite <- E3, <- E4.
Qed.
End TargetClaims.

Lemma targets_change_only_by_polyak_update_witness :
  Forall (fun l => (l < length ex_heap)%nat)
         (parameters ex_Actor ++ parameters ex_Critic) /\
  __init__ ex_Actor ex_Critic 0.001 0.0001 0.5 2 ex_heap ∅ = Return ex_world /\
  Update ex_rng <> PolyakUpdate /\
  values (mem ex_world) (parameters (critic_target (self ex_world))) =
    values (mem ex_world) (parameters (critic (self ex_world))) /\
  mem (invoke ex_autograd ex_rule (Update ex_rng) ex_world_stored) !! 3%nat =
    mem ex_world_stored !! 3%nat.
Proof.
  assert (Hal : Forall (fun l => (l < length ex_heap)%nat)
                       (parameters ex_Actor ++ parameters ex_Critic))
    by (repeat constructor).
  assert (Hinit : __init__ ex_Actor ex_Critic 0.001 0.0001 0.5 2 ex_heap ∅
                  = Return ex_world) by reflexivity.
  assert (Hne : Update ex_rng <> PolyakUpdate) by discriminate.
  destruct (targets_change_only_by_polyak_update ex_autograd ex_rule
              ex_Actor ex_Critic 0.001 0.0001 0.5 2 ex_heap ∅ ex_world Hal Hinit)
    as ((_ & _ & _ & Hcopy) & _ & Hrun).
  split; [exact Hal|]. split; [exact Hinit|]. split; [exact Hne|].
  split; [exact Hcopy|].
  destruct (Hrun [Store [1] [1] 1 [2] false; Store [3] [0] 0 [4] true]
                 (Update ex_rng) Hne) as (_ & _ & Hmem).
  apply (Hmem 3%nat). repeat constructor.
Defined.

Section UpdateClaims.
Variable autograd : (heap -> option tensor) -> heap -> loc -> list Q.
Variable adam_rule :
  Q -> nat -> list Q -> list Q -> list Q -> list Q -> list Q * list Q * list Q.

(** C8, as the code has it.  An [update] that passes the batch-size
    check does not always reach its optimizer steps: with a negative
    [batch_size] it raises [ValueError], with [batch_size = 0] it raises
    [TypeError], and when the critic loss cannot be built (a shape
    mismatch; never the case for one-output critics) it raises
    [RuntimeError], each time leaving the world unchanged.  With
    [batch_size >= 1] the batch is drawn, and when the critic loss can be
    built [update] returns normally and
    - the critic loss is the mean of the squared entries of
      [critic(states, actions) - y];
    - every critic parameter takes one Adam step (its step counter goes
      up by one) whose gradient is exactly the derivative of that loss
      at the values before the call, whatever gradient was stored
      before: the critic's gradients were zeroed before [backward];
    - the actor loss is built in the store [h3] that holds the critic
      after that step and everything else as before the call, and its
      value is [- mean (critic(state, actor(state)))] over the same
      batch, for the updated critic;
    - every actor parameter takes one Adam step whose gradient is
      exactly the derivative of the actor loss in [h3], and the critic
      parameters keep the values of their own step. *)
Theorem update_critic_then_actor rng w :
  consistent w ->
  (batch_size (self w) <= Z.of_nat (ExpReplay_len (buffer (self w))))%Z ->
  ((batch_size (self w) < 0)%Z ->
     update autograd adam_rule rng w = (Raise ValueError, w)) /\
  (batch_size (self w) = 0%Z ->
     update autograd adam_rule rng w = (Raise TypeError, w)) /\
  ((1 <= batch_size (self w))%Z ->
   exists batch,
     ExpReplay_sample (buffer (self w)) (batch_size (self w)) rng = Return batch /\
     length batch = Z.to_nat (batch_size (self w)) /\
     Forall (fun t => t ∈ memory (buffer (self w))) batch /\
     (fn (critic_loss (self w) batch (mem w)) (mem w) = None ->
        update autograd adam_rule rng w = (Raise RuntimeError, w)) /\
     ((forall x, length (forward (critic_target (self w))
                   (values (mem w) (parameters (critic_target (self w)))) x) = 1%nat) ->
      (forall x, length (forward (critic (self w))
                   (values (mem w) (parameters (critic (self w)))) x) = 1%nat) ->
      is_Some (fn (critic_loss (self w) batch (mem w)) (mem w))) /\
     (is_Some (fn (critic_loss (self w) batch (mem w)) (mem w)) ->
      exists w' h3,
        update autograd adam_rule rng w = (Return (), w') /\
        fn (critic_loss (self w) batch (mem w)) (mem w) =
          (y ← fn (target_y (self w) batch) (mem w);
           advantage ← broadcast Qminus
             (Mat ((fun t => forward (critic (self w))
                               (values (mem w) (parameters (critic (self w))))
                               (state t ++ action t)) <$> batch)) y;
           Some (Vec [mean (tmap (fun x => x * x) advantage)])) /\
        (forall i l p st,
           parameters (critic (self w)) !! i = Some l ->
           mem w !! l = Some p ->
           opt_state (critic_optimizer (self w)) !! i = Some st ->
           let g := autograd (fn (critic_loss (self w) batch (mem w))) (mem w) l in
           let r := adam_param adam_rule (lr (critic_optimizer (self w))) st
                      (set_grad (Some g) p) in
           data <$> h3 !! l = Some (data r.2) /\
           data <$> mem w' !! l = Some (data r.2) /\
           opt_state (critic_optimizer (self w')) !! i = Some r.1 /\
           step <$> r.1 = Some (S (from_option step 0%nat st))) /\
        (forall l, l ∉ parameters (critic (self w)) -> h3 !! l = mem w !! l) /\
        fn (actor_loss (self w) batch) h3 =
          Some (Vec [spec_actor_loss (self w) h3 batch]) /\
        (forall i l p st,
           parameters (actor (self w)) !! i = Some l ->
           mem w !! l = Some p ->
           opt_state (actor_optimizer (self w)) !! i = Some st ->
           let g := autograd (fn (actor_loss (self w) batch)) h3 l in
           let r := adam_param adam_rule (lr (actor_optimizer (self w))) st
                      (set_grad (Some g) p) in
           data <$> mem w' !! l = Some (data r.2) /\
           opt_state (actor_optimizer (self w')) !! i = Some r.1 /\
           step <$> r.1 = Some (S (from_option step 0%nat st))))).
Proof.
  intros [Hnd Hal Hga Hgc Hla Hlc] Hge.
  split; [apply update_rejects_negative_batch_size|].
  split; [apply update_rejects_zero_batch_size|].
  intros Hpos.
  destruct (ExpReplay_sample_returns (buffer (self w)) (batch_size (self w)) rng)
    as (batch & Hs & Hlen & Hb & Hin); [lia|].
  exists batch. split; [exact Hs|]. split; [exact Hlen|]. split; [exact Hin|].
  split; [by apply update_stops_on_shape_error|].
  split; [apply critic_loss_defined|].
  intros Hl.
  eexists _, (after_critic_step autograd adam_rule (self w) batch (mem w)).2.
  split; [by apply update_runs|].
  split; [apply critic_loss_value|].
  apply NoDup_app in Hnd as (Hnda & Hdisj & Hndc).
  set (a := self w) in *. set (h0 := mem w) in *.
  assert (Hother3 : forall l, l ∉ parameters (critic a) ->
            (after_critic_step autograd adam_rule a batch h0).2 !! l = h0 !! l).
  { intros l Hl'. unfold after_critic_step.
    rewrite Adam_step_other by (by rewrite Hgc).
    rewrite backward_other by (by rewrite critic_loss_leaves).
    apply zero_grad_other. by rewrite Hgc. }
  assert (Hcritic3 : forall i l p st,
            parameters (critic a) !! i = Some l -> h0 !! l = Some p ->
            opt_state (critic_optimizer a) !! i = Some st ->
            let g := autograd (fn (critic_loss a batch h0)) h0 l in
            let r := adam_param adam_rule (lr (critic_optimizer a)) st
                       (set_grad (Some g) p) in
            (after_critic_step autograd adam_rule a batch h0).2 !! l = Some r.2 /\
            opt_state (after_critic_step autograd adam_rule a batch h0).1 !! i
              = Some r.1).
  { intros i l p st Hi Hp Hst g r. unfold after_critic_step.
    assert (l ∈ parameters (critic a)) as Hin' by (by eapply list_elem_of_lookup_2).
    apply Adam_step_lookup; try done; try (by rewrite Hgc).
    erewrite backward_elem; [| by rewrite critic_loss_leaves |].
    2:{ apply zero_grad_elem; [by rewrite Hgc | by rewrite Hgc | done]. }
    reflexivity. }
  split; [|split; [exact Hother3|split; [apply actor_loss_value|]]].
  - intros i l p st Hi Hp Hst g r.
    destruct (Hcritic3 i l p st Hi Hp Hst) as [H3 Hst3].
    fold g in H3, Hst3. fold r in H3, Hst3.
    assert (l ∈ parameters (critic a)) as Hin' by (by eapply list_elem_of_lookup_2).
    assert (l ∉ parameters (actor a)) as Hnin by (intros ?; by eapply Hdisj).
    split; [by rewrite H3|]. split; [|split].
    + cbn [mem]. unfold after_actor_step.
      rewrite Adam_step_other by (by rewrite Hga).
      erewrite backward_elem;
        [| rewrite actor_loss_leaves; apply elem_of_app; by left |].
      2:{ rewrite zero_grad_other by (by rewrite Hga). exact H3. }
      reflexivity.
    + cbn [self]. exact Hst3.
    + exact (proj1 (adam_param_step _ _ st (set_grad (Some g) p) g eq_refl)).
  - intros i l p st Hi Hp Hst g r.
    assert (l ∈ parameters (actor a)) as Hin' by (by eapply list_elem_of_lookup_2).
    assert (l ∉ parameters (critic a)) as Hnin by (intros ?; by eapply Hdisj).
    destruct (Adam_step_lookup adam_rule (actor_optimizer a)
                (backward autograd (actor_loss a batch)
                   (after_critic_step autograd adam_rule a batch h0).2
                   (zero_grad (actor_optimizer a)
                      (after_critic_step autograd adam_rule a batch h0).2))
                i l (set_grad (Some g) p) st) as [H6 Hst6];
      try done; try (by rewrite Hga).
    { erewrite backward_elem;
        [| rewrite actor_loss_leaves; apply elem_of_app; by right |].
      2:{ apply zero_grad_elem; [by rewrite Hga | by rewrite Hga |].
          rewrite Hother3 by done. exact Hp. }
      reflexivity. }
    split; [|split].
    + cbn [mem]. unfold after_actor_step. by rewrite H6.
    + cbn [self]. exact Hst6.
    + exact (proj1 (adam_param_step _ _ st (set_grad (Some g) p) g eq_refl)).
Qed.
End UpdateClaims.

Lemma ex_world_stored_consistent : consistent ex_world_stored.
Proof.
  constructor; try reflexivity.
  - apply (bool_decide_unpack _). vm_compute. exact I.
  - repeat constructor.
Defined.

Lemma update_critic_then_actor_witness :
  consistent ex_world_stored /\
  (batch_size (self ex_world_stored)
   <= Z.of_nat (ExpReplay_len (buffer (self ex_world_stored))))%Z /\
  (1 <= batch_size (self ex_world_stored))%Z /\
  exists w' h3 loss,
    update ex_autograd ex_rule ex_rng ex_world_stored = (Return (), w') /\
    values (mem ex_world_stored) (parameters (critic (self ex_world_stored)))
      = [[1; 1]] /\
    values h3 (parameters (critic (self ex_world_stored))) = [[0.9999; 0.9999]] /\
    fn (actor_loss (self ex_world_stored) [ex_t1; ex_t2]) h3 = Some (Vec [loss]) /\
    loss == - 3.9996 /\
    spec_actor_loss (self ex_world_stored) (mem ex_world_stored) [ex_t1; ex_t2]
      == - 4.
Proof.
  assert (Hge : (batch_size (self ex_world_stored)
                 <= Z.of_nat (ExpReplay_len (buffer (self ex_world_stored))))%Z)
    by discriminate.
  assert (Hpos : (1 <= batch_size (self ex_world_stored))%Z) by discriminate.
  split; [exact ex_world_stored_consistent|]. split; [exact Hge|].
  split; [exact Hpos|].
  destruct (update_critic_then_actor ex_autograd ex_rule ex_rng ex_world_stored
              ex_world_stored_consistent Hge) as (_ & _ & Hrun).
  destruct (Hrun Hpos) as (batch & Hs & _ & _ & _ & Hdef & Hfull).
  assert (Hb : batch = [ex_t1; ex_t2]).
  { assert (ExpReplay_sample (buffer (self ex_world_stored))
              (batch_size (self ex_world_stored)) ex_rng = Return [ex_t1; ex_t2])
      as E by reflexivity.
    rewrite E in Hs. by injection Hs. }
  subst batch.
  destruct Hfull as (w' & h3 & Hupd & _ & Hcritic & Hframe & Hloss & _).
  { apply Hdef; intros x; reflexivity. }
  destruct (Hcritic 0%nat 1%nat {| data := [1; 1]; grad := None |} None
              eq_refl eq_refl eq_refl) as (H3 & _).
  assert (Ha3 : h3 !! 0%nat = Some {| data := [1]; grad := None |})
    by (rewrite Hframe; [reflexivity|]; by intros ?%list_elem_of_singleton).
  assert (Hv : values h3 (parameters (critic (self ex_world_stored)))
               = [[0.9999; 0.9999]]).
  { unfold values. simpl. destruct (h3 !! 1%nat) as [p3|]; [|discriminate].
    simpl in *. injection H3 as ->. vm_compute. reflexivity. }
  exists w', h3, (spec_actor_loss (self ex_world_stored) h3 [ex_t1; ex_t2]).
  split; [exact Hupd|]. split; [reflexivity|]. split; [exact Hv|].
  split; [exact Hloss|]. split; [|vm_compute; reflexivity].
  unfold spec_actor_loss. rewrite Hv. unfold values. simpl. rewrite Ha3.
  vm_compute. reflexivity.
Defined.

(** C8, as stated, fails: the agent built with [batch_size = 0] passes
    the batch-size check of [update] (its buffer holds two transitions),
    and the call raises [TypeError] without any gradient, parameter or
    optimizer state being written. *)
Lemma update_passes_guard_without_a_step :
  (exists w0,
     __init__ ex_Actor ex_Critic 0.001 0.0001 0.5 0 ex_heap ∅ = Return w0 /\
     (store [3] [0] 0 [4] true (store [1] [1] 1 [2] false w0).2).2
       = zero_batch_world) /\
  (batch_size (self zero_batch_world)
   <= Z.of_nat (ExpReplay_len (buffer (self zero_batch_world))))%Z /\
  update ex_autograd ex_rule ex_rng zero_batch_world
    = (Raise TypeError, zero_batch_world).
Proof.
  split; [eexists; split; reflexivity|]. split; [discriminate|]. reflexivity.
Qed.


(** C7: [save] returns normally, changes neither the agent nor the store,
    and writes the four artifacts [_critic], [_critic_hyp_params], [_actor]
    and [_actor_hyp_params] (four distinct names) holding the critic
    parameters, the critic optimizer state, the actor parameters and the
    actor optimizer state; every other file is left as it was.  Loading
    that checkpoint into an agent whose networks have the same shapes
    returns normally and makes its actor parameters, critic parameters and
    both optimizer states equal to the saved ones. *)
Theorem save_load_round_trip f w1 w2 :
  consistent w1 -> consistent w2 -> same_shapes w1 w2 ->
  disk w2 = disk (save f w1).2 ->
  ((save f w1).1 = Return () /\
   self (save f w1).2 = self w1 /\ mem (save f w1).2 = mem w1 /\
   NoDup (artifacts f) /\
   disk w2 !! (f +:+ "_critic")%string
     = Some (ModuleState (values (mem w1) (parameters (critic (self w1))))) /\
   disk w2 !! (f +:+ "_critic_hyp_params")%string
     = Some (OptimizerState (lr (critic_optimizer (self w1)))
                            (opt_state (critic_optimizer (self w1)))) /\
   disk w2 !! (f +:+ "_actor")%string
     = Some (ModuleState (values (mem w1) (parameters (actor (self w1))))) /\
   disk w2 !! (f +:+ "_actor_hyp_params")%string
     = Some (OptimizerState (lr (actor_optimizer (self w1)))
                            (opt_state (actor_optimizer (self w1)))) /\
   (forall name, name ∉ artifacts f -> disk w2 !! name = disk w1 !! name)) /\
  exists w2',
    load f w2 = (Return (), w2') /\
    values (mem w2') (parameters (actor (self w2'))) =
      values (mem w1) (parameters (actor (self w1))) /\
    values (mem w2') (parameters (critic (self w2'))) =
      values (mem w1) (parameters (critic (self w1))) /\
    lr (actor_optimizer (self w2')) = lr (actor_optimizer (self w1)) /\
    opt_state (actor_optimizer (self w2')) = opt_state (actor_optimizer (self w1)) /\
    lr (critic_optimizer (self w2')) = lr (critic_optimizer (self w1)) /\
    opt_state (critic_optimizer (self w2')) = opt_state (critic_optimizer (self w1)).
Proof.
  intros C1 [Hnd Hal Hga Hgc Hla Hlc] [HsA HsC] Hd.
  destruct (save_lookups f w1) as (L1 & L2 & L3 & L4 & L5).
  rewrite <- Hd in L1, L2, L3, L4, L5.
  unfold state_dict, Adam_state_dict in L1, L2, L3, L4.
  split.
  { repeat split; try done. apply artifacts_NoDup. }
  apply NoDup_app in Hnd as (Hnda & Hdisj & Hndc).
  apply Forall_app in Hal as [Hala Halc].
  set (sdC := values (mem w1) (parameters (critic (self w1)))) in *.
  set (sdA := values (mem w1) (parameters (actor (self w1)))) in *.
  destruct (copy_params_restores (parameters (critic (self w2))) sdC (mem w2))
    as [Hc1 Hc2]; [done|done|by symmetry|].
  set (h1 := (copy_params (parameters (critic (self w2))) sdC (mem w2)).2) in *.
  assert (Hh1 : forall l, l ∈ parameters (actor (self w2)) -> h1 !! l = mem w2 !! l).
  { intros l Hl. apply copy_params_other. intros ?. by eapply Hdisj. }
  destruct (copy_params_restores (parameters (actor (self w2))) sdA h1)
    as [Ha1 Ha2]; [done| | |].
  { unfold h1. by rewrite copy_params_length. }
  { rewrite (values_ext (mem w2) h1) by done. by symmetry. }
  set (h2 := (copy_params (parameters (actor (self w2))) sdA h1).2) in *.
  assert (HlenC : length (opt_state (critic_optimizer (self w1))) =
                  length (param_groups (critic_optimizer (self w2)))).
  { rewrite Hgc, (critic_state_length _ C1).
    apply fmap_length_eq in HsC. unfold sdC in HsC.
    by rewrite !values_length in HsC. }
  assert (HlenA : length (opt_state (actor_optimizer (self w1))) =
                  length (param_groups (actor_optimizer (self w2)))).
  { rewrite Hga, (actor_state_length _ C1).
    apply fmap_length_eq in HsA. unfold sdA in HsA.
    by rewrite !values_length in HsA. }
  assert (E1 : copy_params (parameters (critic (self w2))) sdC (mem w2) = (true, h1)).
  { unfold h1. rewrite <- Hc1. apply surjective_pairing. }
  assert (E2 : copy_params (parameters (actor (self w2))) sdA h1 = (true, h2)).
  { unfold h2. rewrite <- Ha1. apply surjective_pairing. }
  clearbody h1 h2.
  eexists. split.
  - unfold load, m_bind, torch_load. rewrite L1.
    unfold load_state_dict. rewrite E1. cbn [with_mem disk self mem].
    rewrite L2. unfold get_self, lift, Adam_load_state_dict.
    cbn [with_mem disk self mem fst snd].
    rewrite decide_True by done.
    unfold modify_self. cbn [with_mem with_self disk self mem fst snd].
    rewrite L3. simpl. rewrite E2. simpl.
    rewrite L4. simpl.
    rewrite decide_True by done. reflexivity.
  - cbn [self mem with_self with_mem actor critic actor_optimizer critic_optimizer
         set_actor_optimizer set_critic_optimizer with_optimizers lr opt_state].
    repeat split; try done.
    rewrite <- Hc2. apply values_ext. intros l Hl.
    replace h2 with (copy_params (parameters (actor (self w2))) sdA h1).2
      by (by rewrite E2).
    apply copy_params_other. intros ?. by eapply Hdisj.
Qed.

Lemma trained_world_consistent : consistent trained_world.
Proof.
  constructor; try (vm_compute; reflexivity).
  - apply (bool_decide_unpack _). vm_compute. exact I.
  - vm_compute. repeat constructor.
Defined.

Lemma ex_world_consistent d : consistent (with_disk d ex_world).
Proof.
  constructor; try reflexivity.
  - apply (bool_decide_unpack _). vm_compute. exact I.
  - repeat constructor.
Defined.

Lemma with_disk_disk d w : disk (with_disk d w) = d.
Proof. reflexivity. Qed.

Lemma save_load_round_trip_witness :
  consistent trained_world /\
  consistent (with_disk (disk (save "ckpt" trained_world).2) ex_world) /\
  same_shapes trained_world (with_disk (disk (save "ckpt" trained_world).2) ex_world) /\
  exists w2',
    load "ckpt" (with_disk (disk (save "ckpt" trained_world).2) ex_world)
      = (Return (), w2') /\
    values (mem w2') (parameters (actor (self w2'))) = [[0.999]] /\
    values (mem w2') (parameters (critic (self w2'))) = [[0.9999; 0.9999]] /\
    opt_state (actor_optimizer (self w2'))
      = [Some {| step := 1; exp_avg := [0]; exp_avg_sq := [0] |}].
Proof.
  assert (Hs : same_shapes trained_world
                 (with_disk (disk (save "ckpt" trained_world).2) ex_world))
    by (split; vm_compute; reflexivity).
  split; [exact trained_world_consistent|].
  split; [exact (ex_world_consistent _)|].
  split; [exact Hs|].
  destruct (save_load_round_trip "ckpt" trained_world
              (with_disk (disk (save "ckpt" trained_world).2) ex_world)
              trained_world_consistent (ex_world_consistent _) Hs
              (with_disk_disk _ _))
    as (_ & w2' & Hload & Ha & Hc & _ & Ho & _).
  exists w2'. split; [exact Hload|].
  rewrite Ha, Hc, Ho. repeat split; vm_compute; reflexivity.
Defined.

(** * Further properties of the code *)

(** ** What a call can change *)

Section Respects.
Variable autograd : (heap -> option tensor) -> heap -> loc -> list Q.
Variable adam_rule :
  Q -> nat -> list Q -> list Q -> list Q -> list Q -> list Q * list Q * list Q.
Variable R : world -> world -> Prop.
Hypothesis R_refl : forall w, R w w.
Hypothesis R_trans : forall w1 w2 w3, R w1 w2 -> R w2 w3 -> R w1 w3.
Hypothesis R_mem : forall h w, R w (with_mem h w).
Hypothesis R_optimizers :
  forall oa oc w, R w (with_self (with_optimizers oa oc (self w)) w).

Lemma respects_ret {A} (x : A) : respects R (m_ret x).
Proof. intros w. apply R_refl. Qed.

Lemma respects_lift {A} (r : result A) : respects R (lift r).
Proof. intros w. apply R_refl. Qed.

Lemma respects_bind {A B} (m : method A) (k : A -> method B) :
  respects R m -> (forall x, respects R (k x)) -> respects R (m_bind m k).
Proof.
  intros Hm Hk w. unfold m_bind. specialize (Hm w).
  destruct (m w) as [[x|e] w1]; simpl in *; [|done].
  eapply R_trans; [exact Hm|apply Hk].
Qed.

Lemma respects_get_self : respects R get_self.
Proof. intros w. apply R_refl. Qed.

Lemma respects_get_mem : respects R get_mem.
Proof. intros w. apply R_refl. Qed.

Lemma respects_evaluate x : respects R (evaluate x).
Proof. intros w. unfold evaluate. destruct (fn x (mem w)); apply R_refl. Qed.

Lemma respects_modify_mem f : respects R (modify_mem f).
Proof. intros w. apply R_mem. Qed.

Lemma respects_torch_load name : respects R (torch_load name).
Proof. intros w. unfold torch_load. destruct (disk w !! name); apply R_refl. Qed.

Lemma respects_load_state_dict m b : respects R (load_state_dict m b).
Proof.
  intros w. unfold load_state_dict. destruct b as [sd|]; [|apply R_refl].
  destruct (copy_params _ sd (mem w)) as [[] h]; apply R_mem.
Qed.

Lemma respects_set_critic_optimizer o :
  respects R (modify_self (set_critic_optimizer o)).
Proof. intros w. apply R_optimizers. Qed.

Lemma respects_set_actor_optimizer o :
  respects R (modify_self (set_actor_optimizer o)).
Proof. intros w. apply R_optimizers. Qed.

Lemma respects_critic_step : respects R (critic_optimizer_step adam_rule).
Proof.
  intros w. unfold critic_optimizer_step.
  destruct (Adam_step _ _ _) as [o h]. simpl.
  eapply R_trans; [apply (R_optimizers (actor_optimizer (self w)) o)|].
  apply (R_mem h).
Qed.

Lemma respects_actor_step : respects R (actor_optimizer_step adam_rule).
Proof.
  intros w. unfold actor_optimizer_step.
  destruct (Adam_step _ _ _) as [o h]. simpl.
  eapply R_trans; [apply (R_optimizers o (critic_optimizer (self w)))|].
  apply (R_mem h).
Qed.

Lemma respects_update rng : respects R (update autograd adam_rule rng).
Proof.
  unfold update. apply respects_bind; [apply respects_get_self|]. intros a.
  destruct (_ <? _)%Z; [apply respects_ret|].
  repeat (apply respects_bind;
          [first [ apply respects_lift | apply respects_get_mem
                 | apply respects_evaluate | apply respects_modify_mem
                 | apply respects_critic_step ]|]; intros ?).
  apply respects_actor_step.
Qed.

Lemma respects_load f : respects R (load f).
Proof.
  unfold load.
  repeat (apply respects_bind;
          [first [ apply respects_torch_load | apply respects_load_state_dict
                 | apply respects_get_self | apply respects_lift
                 | apply respects_set_critic_optimizer ]|]; intros ?).
  apply respects_set_actor_optimizer.
Qed.

Lemma respects_act v st sigma eps : respects R (act v st sigma eps).
Proof.
  intros w. unfold act. destruct (Normal_sample _ _ _ _); [|apply R_refl].
  destruct (fn _ _); apply R_refl.
Qed.

Lemma respects_polyak_update : respects R polyak_update.
Proof.
  intros w. unfold polyak_update.
  destruct (polyak_loop _ _ (mem w)) as [[[]|e] h1]; [|apply R_mem].
  destruct (polyak_loop _ _ h1) as [r h2]. apply R_mem.
Qed.

Lemma respects_save f :
  (forall d w, R w (with_disk d w)) -> respects R (save f).
Proof.
  intros Hd. unfold save.
  repeat (apply respects_bind; [by intros w; apply Hd|]; intros _).
  intros w. apply Hd.
Qed.
End Respects.

Ltac frame_relation R :=
  assert (forall w, R w w) by done;
  assert (forall w1 w2 w3, R w1 w2 -> R w2 w3 -> R w1 w3)
    by (unfold R; intros; congruence);
  assert (forall h w, R w (with_mem h w)) by done;
  assert (forall oa oc w, R w (with_self (with_optimizers oa oc (self w)) w))
    by done.

Section RunFrames.
Variable autograd : (heap -> option tensor) -> heap -> loc -> list Q.
Variable adam_rule :
  Q -> nat -> list Q -> list Q -> list Q -> list Q -> list Q * list Q * list Q.

Lemma run_app cs cs' w :
  run autograd adam_rule (cs ++ cs') w =
  run autograd adam_rule cs' (run autograd adam_rule cs w).
Proof. apply foldl_app. Qed.

Lemma run_cons c cs w :
  run autograd adam_rule (c :: cs) w =
  run autograd adam_rule cs (invoke autograd adam_rule c w).
Proof. reflexivity. Qed.

Lemma invoke_fixed_attributes c w :
  fixed_attributes (self (invoke autograd adam_rule c w)) = fixed_attributes (self w).
Proof.
  set (R := fun w w' : world => fixed_attributes (self w') = fixed_attributes (self w)).
  frame_relation R.
  destruct c; unfold invoke, forget;
    [ by apply (respects_act R) | done | done
    | by apply (respects_update autograd adam_rule R)
    | by apply (respects_polyak_update R)
    | by apply (respects_save R) | by apply (respects_load R) ].
Qed.

Lemma run_fixed_attributes cs w :
  fixed_attributes (self (run autograd adam_rule cs w)) = fixed_attributes (self w).
Proof.
  revert w. induction cs as [|c cs IH]; intros w; [done|].
  rewrite run_cons, IH. apply invoke_fixed_attributes.
Qed.

Lemma invoke_disk c w :
  (forall f, c <> Save f) -> disk (invoke autograd adam_rule c w) = disk w.
Proof.
  intros Hc.
  set (R := fun w w' : world => disk w' = disk w).
  frame_relation R.
  destruct c as [v st sigma eps|s a r s' d| |rng| |f|f]; unfold invoke, forget;
    [ by apply (respects_act R) | done | done
    | by apply (respects_update autograd adam_rule R)
    | by apply (respects_polyak_update R)
    | by destruct (Hc f) | by apply (respects_load R) ].
Qed.

Lemma invoke_buffer c w :
  writes_buffer c = false ->
  buffer (self (invoke autograd adam_rule c w)) = buffer (self w).
Proof.
  intros Hc.
  set (R := fun w w' : world => buffer (self w') = buffer (self w)).
  frame_relation R.
  destruct c; unfold invoke, forget; try discriminate;
    [ by apply (respects_act R)
    | by apply (respects_update autograd adam_rule R)
    | by apply (respects_polyak_update R)
    | by apply (respects_save R) | by apply (respects_load R) ].
Qed.

Lemma ExpReplay_store_len t b :
  (ExpReplay_len (ExpReplay_store t b) <= S (ExpReplay_len b))%nat.
Proof.
  unfold ExpReplay_len, ExpReplay_store. simpl.
  destruct (decide _); rewrite length_app, ?length_drop; simpl; lia.
Qed.

Lemma run_buffer_len cs w :
  (ExpReplay_len (buffer (self (run autograd adam_rule cs w)))
   <= ExpReplay_len (buffer (self w)) + stores cs)%nat.
Proof.
  revert w. induction cs as [|c cs IH]; intros w; [unfold run; simpl; lia|].
  rewrite run_cons. etrans; [apply IH|].
  unfold stores. rewrite filter_cons.
  destruct c as [v st sigma eps|s a r s' d| |rng| |f|f];
    try (rewrite invoke_buffer by done; simpl; lia).
  - pose proof (ExpReplay_store_len
        {| state := s; action := a; reward := r; next_state := s'; done := d |}
        (buffer (self w))).
    unfold invoke, forget, store. simpl. lia.
  - unfold invoke, forget, reset. simpl. unfold ExpReplay_len. simpl. lia.
Qed.

(** X1: every attribute that the constructor assigns and that is not the
    buffer or an optimizer stays as the constructor left it, whatever
    sequence of calls follows and whether they return or raise: no method
    assigns to [tau], [gamma] or [batch_size], and the agent keeps
    pointing at the same four network objects (the online ones being the
    objects the caller passed in). *)
Theorem constructor_attributes_never_change cs w :
  let w' := run autograd adam_rule cs w in
  tau (self w') = tau (self w) /\
  gamma (self w') = gamma (self w) /\
  batch_size (self w') = batch_size (self w) /\
  actor (self w') = actor (self w) /\
  critic (self w') = critic (self w) /\
  actor_target (self w') = actor_target (self w) /\
  critic_target (self w') = critic_target (self w).
Proof.
  intros w'. pose proof (run_fixed_attributes cs w) as H.
  fold w' in H. unfold fixed_attributes in H. by injection H.
Qed.

(** X2: files are written by [save] only, and only under the four
    artifact names of the prefix it is given: after any sequence of
    calls, a file whose name is not an artifact of a prefix saved to in
    that sequence is as it was (present with the same content, or
    absent). *)
Theorem only_save_writes_files cs w name :
  (forall f, Save f ∈ cs -> name ∉ artifacts f) ->
  disk (run autograd adam_rule cs w) !! name = disk w !! name.
Proof.
  revert w. induction cs as [|c cs IH]; intros w Hn; [done|].
  rewrite run_cons, IH.
  2:{ intros f Hf. apply Hn. by apply list_elem_of_further. }
  destruct c as [v st sigma eps|s a r s' d| |rng| |f|f];
    try (by rewrite invoke_disk).
  destruct (save_lookups f w) as (_ & _ & _ & _ & H). apply H.
  apply Hn. apply list_elem_of_here.
Qed.

(** X4: the replay buffer is written by [store] and [reset] only: a
    sequence of other calls ([act], [update], [polyak_update], [save],
    [load], returning or raising) leaves it exactly as it was.  In
    particular [update] draws its batch without consuming it and [act]
    records nothing. *)
Theorem buffer_written_only_by_store_and_reset cs w :
  Forall (fun c => writes_buffer c = false) cs ->
  buffer (self (run autograd adam_rule cs w)) = buffer (self w).
Proof.
  revert w. induction cs as [|c cs IH]; intros w Hcs; [done|].
  apply Forall_cons in Hcs as [Hc Hcs].
  rewrite run_cons, IH by done. by apply invoke_buffer.
Qed.

(** X5: starting from an empty buffer (a new agent, or one that was just
    reset), [update] stays without effect as long as fewer than
    [batch_size] calls of [store] have been made, whatever other calls
    were made in between: it returns normally and leaves the world as it
    is. *)
Theorem update_waits_for_batch_size_stores cs rng w :
  ExpReplay_len (buffer (self w)) = 0%nat ->
  (Z.of_nat (stores cs) < batch_size (self w))%Z ->
  update autograd adam_rule rng (run autograd adam_rule cs w)
    = (Return (), run autograd adam_rule cs w).
Proof.
  intros H0 Hlt.
  pose proof (run_buffer_len cs w) as Hlen.
  pose proof (run_fixed_attributes cs w) as Hfix.
  unfold fixed_attributes in Hfix. injection Hfix as _ _ Hb _ _ _ _.
  unfold update, m_bind, get_self. simpl. rewrite Hb.
  assert ((Z.of_nat (ExpReplay_len (buffer (self (run autograd adam_rule cs w))))
           <? batch_size (self w))%Z = true) as ->; [|done].
  apply Z.ltb_lt. lia.
Qed.

End RunFrames.

Lemma only_save_writes_files_witness :
  (forall f, Save f ∈ [Save "run2"; Update ex_rng; PolyakUpdate]
     -> "ckpt_critic"%string ∉ artifacts f) /\
  disk (run ex_autograd ex_rule [Save "run2"; Update ex_rng; PolyakUpdate]
          partial_checkpoint) !! "ckpt_critic"%string
    = disk partial_checkpoint !! "ckpt_critic"%string.
Proof.
  assert (H : forall f, Save f ∈ [Save "run2"; Update ex_rng; PolyakUpdate]
                -> "ckpt_critic"%string ∉ artifacts f).
  { intros f Hf. apply elem_of_cons in Hf as [[= ->]|Hf].
    - apply (bool_decide_unpack _). vm_compute. exact I.
    - apply elem_of_cons in Hf as [?|Hf]; [discriminate|].
      apply elem_of_cons in Hf as [?|Hf]; [discriminate|].
      by apply elem_of_nil in Hf. }
  split; [exact H|].
  exact (only_save_writes_files ex_autograd ex_rule _ partial_checkpoint _ H).
Defined.

Lemma buffer_written_only_by_store_and_reset_witness :
  Forall (fun c => writes_buffer c = false)
    [Update ex_rng; Act true [1] 0.5 0; Save "ckpt"; Load "ckpt"; PolyakUpdate] /\
  buffer (self (run ex_autograd ex_rule
                  [Update ex_rng; Act true [1] 0.5 0; Save "ckpt"; Load "ckpt";
                   PolyakUpdate] ex_world_stored))
    = buffer (self ex_world_stored).
Proof.
  assert (H : Forall (fun c => writes_buffer c = false)
    [Update ex_rng; Act true [1] 0.5 0; Save "ckpt"; Load "ckpt"; PolyakUpdate])
    by (repeat constructor).
  split; [exact H|].
  exact (buffer_written_only_by_store_and_reset ex_autograd ex_rule _
           ex_world_stored H).
Defined.

Lemma update_waits_for_batch_size_stores_witness :
  ExpReplay_len (buffer (self ex_world)) = 0%nat /\
  Z.lt (Z.of_nat (stores [Store [1] [1] 1 [2] false; Act true [1] 0.5 0;
                          Save "ckpt"]))
       (batch_size (self ex_world)) /\
  update ex_autograd ex_rule ex_rng
    (run ex_autograd ex_rule
       [Store [1] [1] 1 [2] false; Act true [1] 0.5 0; Save "ckpt"] ex_world)
  = (Return (),
     run ex_autograd ex_rule
       [Store [1] [1] 1 [2] false; Act true [1] 0.5 0; Save "ckpt"] ex_world).
Proof.
  assert (H0 : ExpReplay_len (buffer (self ex_world)) = 0%nat) by reflexivity.
  assert (H1 : Z.lt (Z.of_nat (stores [Store [1] [1] 1 [2] false;
                                       Act true [1] 0.5 0; Save "ckpt"]))
                     (batch_size (self ex_world))) by reflexivity.
  split; [exact H0|]. split; [exact H1|].
  exact (update_waits_for_batch_size_stores ex_autograd ex_rule _ ex_rng ex_world
           H0 H1).
Defined.

(** ** Checkpoint names *)

Lemma list_ascii_of_string_app (s1 s2 : string) :
  String.list_ascii_of_string (s1 +:+ s2) =
    String.list_ascii_of_string s1 ++ String.list_ascii_of_string s2.
Proof. induction s1 as [|c s1 IH]; simpl; [done|]. by rewrite IH. Qed.

Lemma list_ascii_of_string_inj s1 s2 :
  String.list_ascii_of_string s1 = String.list_ascii_of_string s2 -> s1 = s2.
Proof.
  intros H. rewrite <- (String.string_of_list_ascii_of_string s1),
    <- (String.string_of_list_ascii_of_string s2). by rewrite H.
Qed.

(** Two names with the same suffix have the same prefix. *)
Lemma append_inj_l (s1 s2 t : string) : s1 +:+ t = s2 +:+ t -> s1 = s2.
Proof.
  intros H. apply list_ascii_of_string_inj.
  apply (f_equal String.list_ascii_of_string) in H.
  rewrite !list_ascii_of_string_app in H. by apply app_inv_tail in H.
Qed.

(** Names whose suffixes end in different characters are different. *)
Lemma append_last_ne (s1 s2 t1 t2 : string) c1 c2 :
  last (String.list_ascii_of_string t1) = Some c1 ->
  last (String.list_ascii_of_string t2) = Some c2 ->
  c1 <> c2 -> s1 +:+ t1 <> s2 +:+ t2.
Proof.
  intros H1 H2 Hne H. apply (f_equal String.list_ascii_of_string) in H.
  rewrite !list_ascii_of_string_app in H.
  apply (f_equal last) in H.
  rewrite !last_app, H1, H2 in H. congruence.
Qed.

Lemma append_assoc (s1 s2 s3 : string) : (s1 +:+ s2) +:+ s3 = s1 +:+ (s2 +:+ s3).
Proof.
  apply list_ascii_of_string_inj. rewrite !list_ascii_of_string_app.
  by rewrite app_assoc.
Qed.

(** A file name is an artifact of at most one prefix. *)
Lemma artifacts_disjoint f g name :
  name ∈ artifacts f -> name ∈ artifacts g -> f = g.
Proof.
  unfold artifacts. rewrite !elem_of_cons, !elem_of_nil.
  change "_critic_hyp_params"%string with ("_critic" +:+ "_hyp_params")%string.
  change "_actor_hyp_params"%string with ("_actor" +:+ "_hyp_params")%string.
  rewrite <- !append_assoc.
  intros [->|[->|[->|[->|[]]]]] [H|[H|[H|[H|[]]]]];
    try (by apply append_inj_l in H);
    try (by repeat apply append_inj_l in H);
    try (exfalso; revert H; by eapply append_last_ne);
    try (apply append_inj_l in H; exfalso; revert H; by eapply append_last_ne).
Qed.



(** ** Loading *)

(** A copy that reports success has written every tensor. *)
Lemma copy_params_true ps sd (h h' : list Param) :
  NoDup ps -> copy_params ps sd h = (true, h') -> values h' ps = sd.
Proof.
  revert sd h. induction ps as [|k ps IH]; intros sd h Hnd Hcp.
  - destruct sd; [done|discriminate].
  - destruct sd as [|v sd]; [discriminate|].
    apply NoDup_cons in Hnd as [Hk Hnd]. simpl in Hcp.
    destruct (h !! k) as [p|] eqn:Hp; [|discriminate].
    destruct (decide _) as [Hlen|]; [|discriminate].
    pose proof (copy_params_other ps sd (<[k:=set_data v p]> h) k Hk) as Ho.
    rewrite Hcp in Ho. simpl in Ho.
    rewrite list_lookup_insert_eq in Ho by (by eapply lookup_lt_Some).
    unfold values in *. rewrite fmap_cons, Ho. simpl. f_equal.
    by eapply IH.
Qed.

(** Copying the stored values back changes nothing. *)
Lemma copy_params_same ps (h : list Param) :
  Forall (fun l => (l < length h)%nat) ps ->
  copy_params ps (values h ps) h = (true, h).
Proof.
  induction ps as [|k ps IH]; intros Hal; [done|].
  apply Forall_cons in Hal as [Hk Hal].
  destruct (lookup_lt_is_Some_2 h k Hk) as [p Hp].
  unfold values in *. rewrite fmap_cons. simpl. rewrite Hp. simpl.
  rewrite decide_True by done.
  assert (set_data (data p) p = p) as -> by (by destruct p).
  rewrite list_insert_id by done. by apply IH.
Qed.

Lemma with_optimizers_same a :
  with_optimizers (actor_optimizer a) (critic_optimizer a) a = a.
Proof. by destruct a. Qed.

Lemma Adam_load_state_dict_same o :
  length (opt_state o) = length (param_groups o) ->
  Adam_load_state_dict o (Adam_state_dict o) = Return o.
Proof.
  intros H. unfold Adam_load_state_dict, Adam_state_dict.
  rewrite decide_True by done. by destruct o.
Qed.

(** X6: whenever [load] returns normally, wherever the four files came
    from, they were all present, the [_critic] and [_actor] files held
    module states and the two [_hyp_params] files optimizer states, and
    afterwards the agent holds exactly their contents: the critic's and
    the actor's parameter values are the saved tensors and each
    optimizer has the saved learning rate and per-parameter state.  The
    files themselves are not modified.  (The online networks list each
    parameter object once.) *)
Theorem load_returns_what_the_files_hold f w w' :
  NoDup (online (self w)) ->
  load f w = (Return (), w') ->
  exists sdC rateC stC sdA rateA stA,
    disk w !! (f +:+ "_critic")%string = Some (ModuleState sdC) /\
    disk w !! (f +:+ "_critic_hyp_params")%string = Some (OptimizerState rateC stC) /\
    disk w !! (f +:+ "_actor")%string = Some (ModuleState sdA) /\
    disk w !! (f +:+ "_actor_hyp_params")%string = Some (OptimizerState rateA stA) /\
    values (mem w') (parameters (critic (self w'))) = sdC /\
    values (mem w') (parameters (actor (self w'))) = sdA /\
    lr (critic_optimizer (self w')) = rateC /\
    opt_state (critic_optimizer (self w')) = stC /\
    lr (actor_optimizer (self w')) = rateA /\
    opt_state (actor_optimizer (self w')) = stA /\
    disk w' = disk w.
Proof.
  intros Hnd. apply NoDup_app in Hnd as (Hnda & Hdisj & Hndc).
  unfold load, m_bind, torch_load.
  destruct (disk w !! (f +:+ "_critic")%string) as [b1|] eqn:E1; [|discriminate].
  unfold load_state_dict at 1.
  destruct b1 as [sd1|]; [|discriminate].
  destruct (copy_params _ sd1 (mem w)) as [[] h1] eqn:C1; [|discriminate].
  cbn [disk with_mem].
  destruct (disk w !! (f +:+ "_critic_hyp_params")%string) as [b2|] eqn:E2;
    [|discriminate].
  unfold get_self, lift. cbn [fst snd self with_mem].
  destruct b2 as [|rate2 st2]; [discriminate|].
  unfold Adam_load_state_dict at 1.
  destruct (decide _) as [L2|]; [|discriminate].
  unfold modify_self. cbn [disk with_self with_mem].
  destruct (disk w !! (f +:+ "_actor")%string) as [b3|] eqn:E3; [|discriminate].
  unfold load_state_dict.
  destruct b3 as [sd3|]; [|discriminate].
  cbn [self mem with_self with_mem set_critic_optimizer with_optimizers actor].
  destruct (copy_params _ sd3 h1) as [[] h2] eqn:C2; [|discriminate].
  cbn [disk with_self with_mem].
  destruct (disk w !! (f +:+ "_actor_hyp_params")%string) as [b4|] eqn:E4;
    [|discriminate].
  cbn [fst snd self with_self with_mem actor_optimizer].
  destruct b4 as [|rate4 st4]; [discriminate|].
  unfold Adam_load_state_dict.
  destruct (decide _) as [L4|]; [|discriminate].
  intros [= <-].
  exists sd1, rate2, st2, sd3, rate4, st4.
  cbn [self mem disk with_self with_mem set_actor_optimizer set_critic_optimizer
       with_optimizers actor critic actor_optimizer critic_optimizer lr opt_state].
  repeat split; try done.
  - rewrite <- (copy_params_true _ _ _ _ Hndc C1).
    apply values_ext. intros l Hl.
    pose proof (copy_params_other (parameters (actor (self w))) sd3 h1 l) as Ho.
    rewrite C2 in Ho. apply Ho. intros ?. by eapply Hdisj.
  - by eapply copy_params_true.
Qed.

Lemma load_returns_what_the_files_hold_witness :
  let W := with_disk (disk (save "ckpt" trained_world).2) ex_world in
  NoDup (online (self W)) /\
  load "ckpt" W = (Return (), (load "ckpt" W).2) /\
  exists sdC rateC stC sdA rateA stA,
    disk W !! ("ckpt" +:+ "_critic")%string = Some (ModuleState sdC) /\
    disk W !! ("ckpt" +:+ "_critic_hyp_params")%string
      = Some (OptimizerState rateC stC) /\
    disk W !! ("ckpt" +:+ "_actor")%string = Some (ModuleState sdA) /\
    disk W !! ("ckpt" +:+ "_actor_hyp_params")%string
      = Some (OptimizerState rateA stA) /\
    values (mem (load "ckpt" W).2) (parameters (critic (self (load "ckpt" W).2)))
      = sdC /\
    values (mem (load "ckpt" W).2) (parameters (actor (self (load "ckpt" W).2)))
      = sdA /\
    lr (critic_optimizer (self (load "ckpt" W).2)) = rateC /\
    opt_state (critic_optimizer (self (load "ckpt" W).2)) = stC /\
    lr (actor_optimizer (self (load "ckpt" W).2)) = rateA /\
    opt_state (actor_optimizer (self (load "ckpt" W).2)) = stA /\
    disk (load "ckpt" W).2 = disk W.
Proof.
  intros W.
  assert (Hnd : NoDup (online (self W)))
    by (apply (bool_decide_unpack _); vm_compute; exact I).
  assert (Hload : load "ckpt" W = (Return (), (load "ckpt" W).2))
    by (vm_compute; reflexivity).
  split; [exact Hnd|]. split; [exact Hload|].
  exact (load_returns_what_the_files_hold "ckpt" W _ Hnd Hload).
Defined.

(** X7: [load] right after [save] under the same prefix returns normally
    and is the identity: the whole world (parameter values and gradients,
    optimizers, buffer, targets, files) is the one [save] left. *)
Theorem load_after_save_is_identity f w :
  consistent w ->
  load f (save f w).2 = (Return (), (save f w).2).
Proof.
  intros [Hnd Hal Hga Hgc Hla Hlc].
  pose proof (save_lookups f w) as HL. cbv zeta in HL.
  destruct HL as (L1 & L2 & L3 & L4 & _).
  apply Forall_app in Hal as [Hala Halc].
  assert (Es : self (save f w).2 = self w) by done.
  assert (Em : mem (save f w).2 = mem w) by done.
  set (w1 := (save f w).2) in *.
  unfold load, m_bind, torch_load. rewrite L1.
  unfold load_state_dict, state_dict. rewrite Es, Em.
  rewrite copy_params_same by done.
  assert (with_mem (mem w) w1 = w1) as -> by (rewrite <- Em; by destruct w1).
  rewrite L2. unfold get_self, lift. cbn [fst snd]. rewrite Es.
  rewrite Adam_load_state_dict_same by (by rewrite Hgc).
  unfold modify_self, set_critic_optimizer. rewrite Es, with_optimizers_same.
  assert (with_self (self w) w1 = w1) as Hw1 by (rewrite <- Es; by destruct w1).
  rewrite Hw1. rewrite L3. rewrite Es, Em. unfold state_dict.
  rewrite copy_params_same by done.
  assert (with_mem (mem w) w1 = w1) as -> by (rewrite <- Em; by destruct w1).
  rewrite L4. cbn [fst snd]. rewrite Es.
  rewrite Adam_load_state_dict_same by (by rewrite Hga).
  unfold set_actor_optimizer. by rewrite with_optimizers_same, Hw1.
Qed.

Lemma load_after_save_is_identity_witness :
  consistent trained_world /\
  load "ckpt" (save "ckpt" trained_world).2
    = (Return (), (save "ckpt" trained_world).2).
Proof.
  split; [exact trained_world_consistent|].
  exact (load_after_save_is_identity "ckpt" trained_world trained_world_consistent).
Defined.

(** ** Gradients left by [update] *)

Section Gradients.
Variable autograd : (heap -> option tensor) -> heap -> loc -> list Q.
Variable adam_rule :
  Q -> nat -> list Q -> list Q -> list Q -> list Q -> list Q * list Q * list Q.

(** The optimizer step reads gradients and never writes them. *)
Lemma adam_param_grad rate st p : grad (adam_param adam_rule rate st p).2 = grad p.
Proof.
  unfold adam_param. destruct (grad p) as [g|] eqn:E; [|done].
  by destruct (adam_rule _ _ _ _ _ _) as [[v m1] m2].
Qed.

Lemma adam_loop_grad rate ps sts (h : list Param) l :
  grad <$> (adam_loop adam_rule rate ps sts h).2 !! l = grad <$> h !! l.
Proof.
  revert sts h. induction ps as [|k ps IH]; intros sts h; simpl; [done|].
  destruct sts as [|st sts]; [done|].
  destruct (h !! k) as [p|] eqn:Hp.
  - pose proof (adam_param_grad rate st p) as Hg.
    destruct (adam_param adam_rule rate st p) as [st' p'].
    specialize (IH sts (<[k:=p']> h)).
    destruct (adam_loop _ _ _ _ (<[k:=p']> h)) as [r h']. simpl in *.
    rewrite IH. destruct (decide (l = k)) as [->|Hne].
    + rewrite list_lookup_insert_eq by (by eapply lookup_lt_Some).
      rewrite Hp. simpl. by rewrite Hg.
    + by rewrite list_lookup_insert_ne.
  - specialize (IH sts h). by destruct (adam_loop _ _ _ _ h) as [r h'].
Qed.

Lemma Adam_step_grad o (h : list Param) l :
  grad <$> (Adam_step adam_rule o h).2 !! l = grad <$> h !! l.
Proof.
  unfold Adam_step.
  pose proof (adam_loop_grad (lr o) (param_groups o) (opt_state o) h l) as H.
  by destruct (adam_loop _ _ _ _ _).
Qed.

(** X8: after an [update] that runs (the guard is passed, the batch is
    drawn and the critic loss can be built), the gradient left on every
    critic parameter is the sum of two
    derivatives: that of the critic loss (at the values before the call)
    and that of the actor loss (in the store [h3] after the critic's
    step), because [actor_loss.backward()] also flows into the critic,
    whose gradients are zeroed only at the start of the critic phase.
    The gradient left on every actor parameter is the derivative of the
    actor loss alone. *)
Theorem update_leaves_both_gradients_on_the_critic rng w batch :
  consistent w ->
  (batch_size (self w) <= Z.of_nat (ExpReplay_len (buffer (self w))))%Z ->
  ExpReplay_sample (buffer (self w)) (batch_size (self w)) rng = Return batch ->
  batch <> [] ->
  is_Some (fn (critic_loss (self w) batch (mem w)) (mem w)) ->
  let h3 := (after_critic_step autograd adam_rule (self w) batch (mem w)).2 in
  let w' := (update autograd adam_rule rng w).2 in
  (forall l, l ∈ parameters (critic (self w)) ->
     grad <$> mem w' !! l =
       Some (Some (zip_with Qplus
                     (autograd (fn (critic_loss (self w) batch (mem w))) (mem w) l)
                     (autograd (fn (actor_loss (self w) batch)) h3 l)))) /\
  (forall l, l ∈ parameters (actor (self w)) ->
     grad <$> mem w' !! l =
       Some (Some (autograd (fn (actor_loss (self w) batch)) h3 l))).
Proof.
  intros [Hnd Hal Hga Hgc Hla Hlc] Hge Hs Hb Hl h3 w'.
  unfold w'. rewrite (update_runs autograd adam_rule rng w batch) by done.
  cbn [snd mem]. unfold after_actor_step. fold h3.
  apply NoDup_app in Hnd as (Hnda & Hdisj & Hndc).
  apply Forall_app in Hal as [Hala Halc].
  rewrite Forall_forall in Hala, Halc.
  assert (Hc3 : forall l, l ∈ parameters (critic (self w)) ->
            exists p3, h3 !! l = Some p3 /\
              grad p3 = Some (autograd (fn (critic_loss (self w) batch (mem w)))
                                (mem w) l)).
  { intros l Hin.
    destruct (lookup_lt_is_Some_2 (mem w) l (Halc l Hin)) as [p Hp].
    pose proof (Adam_step_grad (critic_optimizer (self w))
      (backward autograd (critic_loss (self w) batch (mem w)) (mem w)
         (zero_grad (critic_optimizer (self w)) (mem w))) l) as Hg.
    erewrite backward_elem in Hg; [| by rewrite critic_loss_leaves |].
    2:{ apply zero_grad_elem; [by rewrite Hgc | by rewrite Hgc | exact Hp]. }
    unfold h3, after_critic_step.
    destruct ((Adam_step adam_rule _ _).2 !! l) as [p3|]; [|discriminate].
    simpl in Hg. injection Hg as Hg. by exists p3. }
  split.
  - intros l Hin. destruct (Hc3 l Hin) as (p3 & Hp3 & Hg3).
    assert (l ∉ parameters (actor (self w))) as Hnin by (intros ?; by eapply Hdisj).
    rewrite Adam_step_grad.
    erewrite backward_elem;
      [| rewrite actor_loss_leaves; apply elem_of_app; by left |].
    2:{ rewrite zero_grad_other by (by rewrite Hga). exact Hp3. }
    simpl. by rewrite Hg3.
  - intros l Hin.
    assert (l ∉ parameters (critic (self w))) as Hnin by (intros ?; by eapply Hdisj).
    destruct (lookup_lt_is_Some_2 (mem w) l (Hala l Hin)) as [p Hp].
    assert (h3 !! l = Some p) as Hp3.
    { unfold h3, after_critic_step.
      rewrite Adam_step_other by (by rewrite Hgc).
      rewrite backward_other by (by rewrite critic_loss_leaves).
      rewrite zero_grad_other by (by rewrite Hgc). done. }
    rewrite Adam_step_grad.
    erewrite backward_elem;
      [| rewrite actor_loss_leaves; apply elem_of_app; by right |].
    2:{ apply zero_grad_elem; [by rewrite Hga | by rewrite Hga | exact Hp3]. }
    done.
Qed.
End Gradients.

Lemma update_leaves_both_gradients_on_the_critic_witness :
  consistent ex_world_stored /\
  (batch_size (self ex_world_stored)
   <= Z.of_nat (ExpReplay_len (buffer (self ex_world_stored))))%Z /\
  ExpReplay_sample (buffer (self ex_world_stored))
    (batch_size (self ex_world_stored)) ex_rng = Return [ex_t1; ex_t2] /\
  [ex_t1; ex_t2] <> [] /\
  is_Some (fn (critic_loss (self ex_world_stored) [ex_t1; ex_t2]
                 (mem ex_world_stored)) (mem ex_world_stored)) /\
  grad <$> mem trained_world !! 1%nat = Some (Some [1 + 1; 1 + 1]) /\
  grad <$> mem trained_world !! 0%nat = Some (Some [1]).
Proof.
  assert (Hge : (batch_size (self ex_world_stored)
                 <= Z.of_nat (ExpReplay_len (buffer (self ex_world_stored))))%Z)
    by discriminate.
  assert (Hs : ExpReplay_sample (buffer (self ex_world_stored))
                 (batch_size (self ex_world_stored)) ex_rng
               = Return [ex_t1; ex_t2]) by reflexivity.
  assert (Hb : [ex_t1; ex_t2] <> []) by discriminate.
  assert (Hl : is_Some (fn (critic_loss (self ex_world_stored) [ex_t1; ex_t2]
                              (mem ex_world_stored)) (mem ex_world_stored)))
    by (eexists; vm_compute; reflexivity).
  repeat (split; [assumption || exact ex_world_stored_consistent|]).
  destruct (update_leaves_both_gradients_on_the_critic ex_autograd ex_rule ex_rng
              ex_world_stored [ex_t1; ex_t2] ex_world_stored_consistent Hge Hs Hb Hl)
    as [Hc Ha].
  unfold trained_world. split.
  - rewrite (Hc 1%nat) by (repeat constructor). vm_compute. reflexivity.
  - rewrite (Ha 0%nat) by (repeat constructor). vm_compute. reflexivity.
Defined.

(** ** The critic target, entry by entry *)

Lemma squared_differences (cs ys : list Q) :
  (fun x => x * x) <$> zip_with Qminus cs ys =
  zip_with (fun c y => (c - y) * (c - y)) cs ys.
Proof.
  revert ys. induction cs as [|c cs IH]; intros [|y ys]; csimpl; try done.
  by rewrite IH.
Qed.

(** X9: for a batch of one transition the code computes exactly the
    per-transition regression of DDPG: the target [y] of line 128 is
    [reward + gamma * (1 - done) * critic_target(next_state,
    actor_target(next_state))], and the loss of line 132 is the mean
    squared error between [critic(state, action)] and that target
    (critic and target critic having outputs of the same width). *)
Theorem single_transition_batch_meets_definition a (h : heap) t :
  length (forward (critic a) (values h (parameters (critic a)))
            (state t ++ action t)) =
  length (spec_target a h t) ->
  fn (target_y a [t]) h = Some (Mat [spec_target a h t]) /\
  fn (critic_loss a [t] h) h = Some (Vec [spec_critic_loss a h [t]]).
Proof.
  intros Hlen.
  assert (Hy : fn (target_y a [t]) h = Some (Mat [spec_target a h t])).
  { simpl. rewrite broadcast_row_one_l. simpl. rewrite broadcast_row_one_l. simpl.
    unfold spec_target. rewrite <- list_fmap_compose. reflexivity. }
  split; [exact Hy|].
  unfold critic_loss.
  cbn [fn t_mean t_pow2 t_map t_sub t_binop detach call t_hstack const].
  rewrite Hy. simpl. rewrite broadcast_row_same by done. simpl.
  unfold spec_critic_loss. simpl. by rewrite squared_differences.
Qed.

Lemma single_transition_batch_meets_definition_witness :
  length (forward (critic ex_agent)
            (values (mem ex_world) (parameters (critic ex_agent)))
            (state ex_t1 ++ action ex_t1)) =
  length (spec_target ex_agent (mem ex_world) ex_t1) /\
  fn (target_y ex_agent [ex_t1]) (mem ex_world)
    = Some (Mat [spec_target ex_agent (mem ex_world) ex_t1]) /\
  fn (critic_loss ex_agent [ex_t1] (mem ex_world)) (mem ex_world)
    = Some (Vec [spec_critic_loss ex_agent (mem ex_world) [ex_t1]]).
Proof.
  assert (H : length (forward (critic ex_agent)
            (values (mem ex_world) (parameters (critic ex_agent)))
            (state ex_t1 ++ action ex_t1)) =
          length (spec_target ex_agent (mem ex_world) ex_t1)) by reflexivity.
  split; [exact H|].
  exact (single_transition_batch_meets_definition ex_agent (mem ex_world) ex_t1 H).
Defined.

(** X10: when the target critic has one output, the target [y] of line
    128 is a [B x B] matrix for a batch of [B] transitions in which
    - the diagonal entry [(i, i)] is the per-transition target of
      transition [i], and
    - every entry of the column of a terminal transition ([done] true)
      is numerically that transition's reward: the factor [1 - done]
      removes the bootstrap term, whatever the target networks compute. *)
Theorem target_diagonal_and_terminal_columns a (h : heap) batch :
  (forall x, length (forward (critic_target a)
                       (values h (parameters (critic_target a))) x) = 1%nat) ->
  exists y,
    fn (target_y a batch) h = Some (Mat y) /\
    length y = length batch /\
    (forall i ti, batch !! i = Some ti ->
       exists row, y !! i = Some row /\ length row = length batch /\
                   row !! i = Some (hd 0 (spec_target a h ti))) /\
    (forall i j row tj,
       y !! i = Some row -> batch !! j = Some tj -> done tj = true ->
       exists v, row !! j = Some v /\ v == reward tj).
Proof.
  intros Hone. eexists. split; [by apply target_y_broadcast|].
  split; [by rewrite length_fmap|]. split.
  - intros i ti Hi. eexists. split; [|split].
    + rewrite list_lookup_fmap, Hi. reflexivity.
    + by rewrite length_fmap.
    + rewrite list_lookup_fmap, Hi. simpl. f_equal.
      unfold spec_target.
      specialize (Hone (next_state ti ++
        forward (actor_target a) (values h (parameters (actor_target a)))
          (next_state ti))).
      by destruct (forward (critic_target a) _ _) as [|v [|??]].
  - intros i j row tj Hi Hj Hd.
    rewrite list_lookup_fmap in Hi.
    destruct (batch !! i) as [ti|]; [|discriminate]. injection Hi as <-.
    eexists. split; [rewrite list_lookup_fmap, Hj; reflexivity|].
    rewrite Hd. simpl. ring.
Qed.

Lemma target_diagonal_and_terminal_columns_witness :
  (forall x, length (forward (critic_target ex_agent)
               (values (mem ex_world) (parameters (critic_target ex_agent))) x)
             = 1%nat) /\
  exists y,
    fn (target_y ex_agent [ex_t1; ex_t2]) (mem ex_world) = Some (Mat y) /\
    length y = 2%nat.
Proof.
  assert (H : forall x, length (forward (critic_target ex_agent)
               (values (mem ex_world) (parameters (critic_target ex_agent))) x)
             = 1%nat) by (intros x; reflexivity).
  split; [exact H|].
  destruct (target_diagonal_and_terminal_columns ex_agent (mem ex_world)
              [ex_t1; ex_t2] H) as (y & Hy & Hlen & _).
  exists y. split; [exact Hy|exact Hlen].
Defined.

(** ** Worlds reached from the constructor *)

(** The constructor's targets live in the objects allocated by
    [deepcopy], apart from every object that existed before. *)
Lemma init_targets Actor Critic actor_lr critic_lr disc_rate batch (h : list Param) d w :
  __init__ Actor Critic actor_lr critic_lr disc_rate batch h d = Return w ->
  (forall l, l ∈ targets (self w) -> (length h <= l < length (mem w))%nat) /\
  exists fresh, mem w = h ++ fresh.
Proof.
  intros Hinit.
  apply init_world in Hinit as (Ha & Hc & Hga & Hgc & Hat & Hct & Hm).
  unfold targets. rewrite Hat, Hct, Hm. unfold deepcopy. simpl.
  split.
  - intros l Hl. rewrite !length_app, !length_fmap, !values_length.
    apply elem_of_app in Hl as [Hl|Hl]; apply elem_of_seq in Hl;
      rewrite ?length_app, ?length_fmap, ?values_length in Hl; lia.
  - rewrite <- app_assoc. eauto.
Qed.

Lemma init_separated Actor Critic actor_lr critic_lr disc_rate batch (h : list Param) d w :
  Forall (fun l => (l < length h)%nat) (parameters Actor ++ parameters Critic) ->
  __init__ Actor Critic actor_lr critic_lr disc_rate batch h d = Return w ->
  separated (self w).
Proof.
  intros Hal Hinit. destruct (init_targets _ _ _ _ _ _ _ _ _ Hinit) as [Hfresh _].
  apply init_world in Hinit as (Ha & Hc & Hga & Hgc & _).
  unfold separated, online. rewrite Hga, Hgc, Ha, Hc. split; [|split].
  - intros l Hl. apply elem_of_app. by left.
  - intros l Hl. apply elem_of_app. by right.
  - intros l Hl Hon. apply Hfresh in Hl. rewrite Forall_forall in Hal.
    apply Hal in Hon. lia.
Qed.

Lemma init_well_kept Actor Critic actor_lr critic_lr disc_rate batch (h : list Param) d w :
  __init__ Actor Critic actor_lr critic_lr disc_rate batch h d = Return w ->
  well_kept (self w) (length (mem w)) w.
Proof.
  unfold __init__.
  destruct (Adam_new (parameters Actor) actor_lr) as [oa|] eqn:Ea; [|discriminate].
  destruct (Adam_new (parameters Critic) critic_lr) as [oc|] eqn:Ec; [|discriminate].
  apply Adam_new_inv in Ea as (Ea & _ & Esa). apply Adam_new_inv in Ec as (Ec & _ & Esc).
  unfold deepcopy. intros [= <-]. unfold well_kept. simpl.
  split; [by repeat split|]. split; [done|].
  by rewrite Esa, Esc, !length_fmap, Ea, Ec.
Qed.

(** The targets start as copies of the networks passed in. *)
Lemma init_target_values
    Actor Critic actor_lr critic_lr disc_rate batch (h : list Param) d w :
  Forall (fun l => (l < length h)%nat) (parameters Actor ++ parameters Critic) ->
  __init__ Actor Critic actor_lr critic_lr disc_rate batch h d = Return w ->
  forward (actor_target (self w)) = forward Actor /\
  values (mem w) (parameters (actor_target (self w))) = values h (parameters Actor) /\
  forward (critic_target (self w)) = forward Critic /\
  values (mem w) (parameters (critic_target (self w))) = values h (parameters Critic).
Proof.
  intros Hal Hinit.
  apply init_world in Hinit as (_ & _ & _ & _ & Eat & Ect & Em).
  apply Forall_app in Hal as [HalA HalC].
  destruct (deepcopy_spec Actor h HalA) as (Hf1 & Hv1 & Hfresh1 & g1 & Hh1).
  set (h1 := (deepcopy Actor h).2) in *.
  assert (HalC1 : Forall (fun l => (l < length h1)%nat) (parameters Critic)).
  { rewrite Hh1, length_app. eapply Forall_impl; [exact HalC|]. simpl. lia. }
  destruct (deepcopy_spec Critic h1 HalC1) as (Hf2 & Hv2 & Hfresh2 & g2 & Hh2).
  rewrite Eat, Ect, Em. fold h1. repeat split; try done.
  - rewrite Hh2, values_app_allocated; [done|].
    apply Forall_forall. intros l Hl. by apply Hfresh1.
  - rewrite Hv2, Hh1. by apply values_app_allocated.
Qed.

Section Reach.
Variable autograd : (heap -> option tensor) -> heap -> loc -> list Q.
Variable adam_rule :
  Q -> nat -> list Q -> list Q -> list Q -> list Q -> list Q * list Q * list Q.

(** Every call, [polyak_update] included, leaves alone the allocated
    objects that are not online parameters. *)
Lemma invoke_frame_allocated a0 c w l :
  separated a0 -> same_refs a0 (self w) -> l ∉ online a0 ->
  (l < length (mem w))%nat ->
  mem (invoke autograd adam_rule c w) !! l = mem w !! l.
Proof.
  intros Hsep Hw Hl Hlt.
  assert (c = PolyakUpdate \/ c <> PolyakUpdate) as [->|Hc]
    by (destruct c; auto).
  - unfold invoke, forget.
    destruct (polyak_update_frame w) as (_ & _ & g & ->). by apply lookup_app_l.
  - by apply (invoke_frame autograd adam_rule a0 Hsep).
Qed.

Lemma run_frame_allocated a0 n cs w l :
  separated a0 -> well_kept a0 n w -> l ∉ online a0 -> (l < n)%nat ->
  mem (run autograd adam_rule cs w) !! l = mem w !! l.
Proof.
  intros Hsep Hw Hl Hlt. revert w Hw.
  induction cs as [|c cs IH]; intros w Hw; [done|].
  rewrite run_cons, IH.
  - apply (invoke_frame_allocated a0); try done; [apply Hw|].
    destruct Hw as (_ & Hn & _). lia.
  - by apply invoke_maintains.
Qed.

(** No sequence of calls writes to a target parameter object of an
    agent built by the constructor. *)
Lemma init_run_targets
    Actor Critic actor_lr critic_lr disc_rate batch (h : list Param) d w cs l :
  Forall (fun l => (l < length h)%nat) (parameters Actor ++ parameters Critic) ->
  __init__ Actor Critic actor_lr critic_lr disc_rate batch h d = Return w ->
  l ∈ targets (self w) ->
  mem (run autograd adam_rule cs w) !! l = mem w !! l.
Proof.
  intros Hal Hinit Hl.
  pose proof (init_separated _ _ _ _ _ _ _ _ _ Hal Hinit) as Hsep.
  pose proof (init_well_kept _ _ _ _ _ _ _ _ _ Hinit) as Hwk.
  destruct (init_targets _ _ _ _ _ _ _ _ _ Hinit) as [Hfresh _].
  apply (run_frame_allocated (self w) (length (mem w))); try done.
  - destruct Hsep as (_ & _ & H). by apply H.
  - by apply Hfresh.
Qed.

(** X11: from two networks that exist in the store and share no
    parameter object, the constructor builds a consistent agent, and
    every sequence of calls, returning or raising, keeps it consistent:
    the online parameter objects exist and are pairwise distinct, each
    optimizer points at exactly the parameters of its network, and each
    optimizer has one state slot per parameter. *)
Theorem reachable_worlds_are_consistent
    Actor Critic actor_lr critic_lr disc_rate batch (h : heap) d w cs :
  NoDup (parameters Actor ++ parameters Critic) ->
  Forall (fun l => (l < length h)%nat) (parameters Actor ++ parameters Critic) ->
  __init__ Actor Critic actor_lr critic_lr disc_rate batch h d = Return w ->
  consistent (run autograd adam_rule cs w).
Proof.
  intros Hnd Hal Hinit. apply run_consistent.
  by eapply init_consistent.
Qed.

(** X12: as the code stands, the target networks of an agent never
    change after construction.  Whatever sequence of calls follows
    ([update] and [polyak_update] included, returning or raising), every
    target parameter object keeps its value and gradient, and both
    target networks keep the architecture and the parameter values that
    the networks passed to the constructor had at construction. *)
Theorem target_networks_never_change
    Actor Critic actor_lr critic_lr disc_rate batch (h : heap) d w cs :
  Forall (fun l => (l < length h)%nat) (parameters Actor ++ parameters Critic) ->
  __init__ Actor Critic actor_lr critic_lr disc_rate batch h d = Return w ->
  let w' := run autograd adam_rule cs w in
  (forall l, l ∈ targets (self w) -> mem w' !! l = mem w !! l) /\
  forward (actor_target (self w')) = forward Actor /\
  values (mem w') (parameters (actor_target (self w'))) = values h (parameters Actor) /\
  forward (critic_target (self w')) = forward Critic /\
  values (mem w') (parameters (critic_target (self w'))) = values h (parameters Critic).
Proof.
  intros Hal Hinit w'.
  assert (Hfrozen : forall l, l ∈ targets (self w) -> mem w' !! l = mem w !! l)
    by (intros l Hl; by eapply init_run_targets).
  split; [exact Hfrozen|].
  pose proof (run_fixed_attributes autograd adam_rule cs w) as Hfix.
  fold w' in Hfix. unfold fixed_attributes in Hfix.
  injection Hfix as _ _ _ _ _ Hat Hct. rewrite Hat, Hct.
  destruct (init_target_values _ _ _ _ _ _ _ _ _ Hal Hinit) as (Hf1 & Hv1 & Hf2 & Hv2).
  rewrite <- Hv1, <- Hv2. repeat split; try done.
  - apply values_ext. intros l Hl. apply Hfrozen. unfold targets.
    apply elem_of_app. by left.
  - apply values_ext. intros l Hl. apply Hfrozen. unfold targets.
    apply elem_of_app. by right.
Qed.
End Reach.

Lemma reachable_worlds_are_consistent_witness :
  NoDup (parameters ex_Actor ++ parameters ex_Critic) /\
  Forall (fun l => (l < length ex_heap)%nat)
         (parameters ex_Actor ++ parameters ex_Critic) /\
  __init__ ex_Actor ex_Critic 0.001 0.0001 0.5 2 ex_heap ∅ = Return ex_world /\
  consistent (run ex_autograd ex_rule
                [Store [1] [1] 1 [2] false; Store [3] [0] 0 [4] true;
                 Update ex_rng; PolyakUpdate; Save "ckpt"; Load "ckpt"] ex_world).
Proof.
  assert (Hnd : NoDup (parameters ex_Actor ++ parameters ex_Critic))
    by (apply (bool_decide_unpack _); vm_compute; exact I).
  assert (Hal : Forall (fun l => (l < length ex_heap)%nat)
                       (parameters ex_Actor ++ parameters ex_Critic))
    by (repeat constructor).
  assert (Hinit : __init__ ex_Actor ex_Critic 0.001 0.0001 0.5 2 ex_heap ∅
                  = Return ex_world) by reflexivity.
  split; [exact Hnd|]. split; [exact Hal|]. split; [exact Hinit|].
  exact (reachable_worlds_are_consistent ex_autograd ex_rule _ _ _ _ _ _ _ _ _ _
           Hnd Hal Hinit).
Defined.

Lemma target_networks_never_change_witness :
  Forall (fun l => (l < length ex_heap)%nat)
         (parameters ex_Actor ++ parameters ex_Critic) /\
  __init__ ex_Actor ex_Critic 0.001 0.0001 0.5 2 ex_heap ∅ = Return ex_world /\
  values (mem (run ex_autograd ex_rule
                 [Store [1] [1] 1 [2] false; Store [3] [0] 0 [4] true;
                  Update ex_rng; PolyakUpdate] ex_world))
         (parameters (critic_target (self (run ex_autograd ex_rule
                 [Store [1] [1] 1 [2] false; Store [3] [0] 0 [4] true;
                  Update ex_rng; PolyakUpdate] ex_world))))
    = values ex_heap (parameters ex_Critic).
Proof.
  assert (Hal : Forall (fun l => (l < length ex_heap)%nat)
                       (parameters ex_Actor ++ parameters ex_Critic))
    by (repeat constructor).
  assert (Hinit : __init__ ex_Actor ex_Critic 0.001 0.0001 0.5 2 ex_heap ∅
                  = Return ex_world) by reflexivity.
  split; [exact Hal|]. split; [exact Hinit|].
  exact (proj2 (proj2 (proj2 (proj2
    (target_networks_never_change ex_autograd ex_rule _ _ _ _ _ _ _ _ _
       [Store [1] [1] 1 [2] false; Store [3] [0] 0 [4] true;
        Update ex_rng; PolyakUpdate] Hal Hinit))))).
Defined.

(** ** [polyak_update] returns *)

Lemma polyak_loop_returns t pairs (h : list Param) :
  Forall (same_shape h) pairs -> (polyak_loop t pairs h).1 = Return ().
Proof.
  revert h. induction pairs as [|[trg src] rest IH]; intros h Hp; [done|].
  apply Forall_cons in Hp as [(tp & sp & Ht & Hs & Hlen) Hrest].
  simpl in *. unfold polyak_body. simpl. rewrite Ht, Hs, decide_True by done.
  apply IH. eapply Forall_impl; [exact Hrest|].
  intros [t' s'] (tp' & sp' & Ht' & Hs' & Hlen'). exists tp', sp'. simpl in *.
  rewrite !lookup_app_l by (by eapply lookup_lt_Some). done.
Qed.

(** X13: [polyak_update] returns normally whenever every target
    parameter exists and has the shape of the online parameter it is
    zipped with (as is the case for the copies made by the constructor):
    both loops run to their end, the second one in the store the first
    one left. *)
Theorem polyak_update_returns w :
  Forall (same_shape (mem w))
    (zip (parameters (critic_target (self w))) (parameters (critic (self w)))) ->
  Forall (same_shape (mem w))
    (zip (parameters (actor_target (self w))) (parameters (actor (self w)))) ->
  (polyak_update w).1 = Return ().
Proof.
  intros Hc Ha. unfold polyak_update.
  pose proof (polyak_loop_returns (tau (self w)) _ (mem w) Hc) as H1.
  destruct (polyak_loop_appends (tau (self w))
    (zip (parameters (critic_target (self w))) (parameters (critic (self w))))
    (mem w)) as [g1 Hg1].
  destruct (polyak_loop _ _ (mem w)) as [r1 h1]. simpl in *. subst r1 h1.
  assert (Forall (same_shape (mem w ++ g1))
    (zip (parameters (actor_target (self w))) (parameters (actor (self w)))))
    as Ha'.
  { eapply Forall_impl; [exact Ha|].
    intros [t' s'] (tp' & sp' & Ht' & Hs' & Hlen'). exists tp', sp'. simpl in *.
    rewrite !lookup_app_l by (by eapply lookup_lt_Some). done. }
  pose proof (polyak_loop_returns (tau (self w)) _ _ Ha') as H2.
  by destruct (polyak_loop _ _ (mem w ++ g1)) as [r2 h2].
Qed.

Lemma polyak_update_returns_witness :
  Forall (same_shape (mem drifted_world))
    (zip (parameters (critic_target (self drifted_world)))
         (parameters (critic (self drifted_world)))) /\
  Forall (same_shape (mem drifted_world))
    (zip (parameters (actor_target (self drifted_world)))
         (parameters (actor (self drifted_world)))) /\
  (polyak_update drifted_world).1 = Return ().
Proof.
  assert (Hc : Forall (same_shape (mem drifted_world))
    (zip (parameters (critic_target (self drifted_world)))
         (parameters (critic (self drifted_world))))).
  { constructor; [|constructor]. eexists _, _. repeat split; reflexivity. }
  assert (Ha : Forall (same_shape (mem drifted_world))
    (zip (parameters (actor_target (self drifted_world)))
         (parameters (actor (self drifted_world))))).
  { constructor; [|constructor]. eexists _, _. repeat split; reflexivity. }
  split; [exact Hc|]. split; [exact Ha|].
  exact (polyak_update_returns drifted_world Hc Ha).
Defined.

(** ** The training script *)

Section TrainingRuns.
Variable autograd : (heap -> option tensor) -> heap -> loc -> list Q.
Variable adam_rule :
  Q -> nat -> list Q -> list Q -> list Q -> list Q -> list Q * list Q * list Q.
Variable Env : Type.
Variable env_reset : Env -> list Q * Env.
Variable env_step : list Q -> Env -> list Q * Q * bool * Env.
Variable validate_args : bool.
Variable eps : nat -> Q.
Variable rng : nat -> nat -> nat.

(** The script talks to the agent through its public calls only: the
    world it leaves is the world after some sequence of calls. *)
Lemma episode_loop_run fuel k st total env w :
  exists cs,
    (episode_loop autograd adam_rule Env env_step validate_args eps rng
       fuel k st total env w).2 = run autograd adam_rule cs w.
Proof.
  revert k st total env w. induction fuel as [|fuel IH]; intros k st total env w.
  - by exists [].
  - cbn [episode_loop].
    destruct (act validate_args st 0.5 (eps k) w) as [[a|e] w1] eqn:Ea.
    2:{ exists [Act validate_args st 0.5 (eps k)]. unfold run. cbn [foldl].
        unfold invoke, forget. by rewrite Ea. }
    destruct (env_step (entries a) env) as [[[st' r] d] env'].
    set (c1 := Act validate_args st 0.5 (eps k)).
    set (c2 := Store st (entries a) r st' d).
    set (c3 := Update (rng k)).
    assert (H1 : w1 = invoke autograd adam_rule c1 w)
      by (unfold c1, invoke, forget; by rewrite Ea).
    destruct (store st (entries a) r st' d w1) as [[[]|e] w2] eqn:Es.
    2:{ exists [c1; c2]. unfold run. cbn [foldl]. rewrite <- H1.
        unfold c2, invoke, forget. rewrite Es. reflexivity. }
    assert (H2 : w2 = invoke autograd adam_rule c2 w1)
      by (unfold c2, invoke, forget; by rewrite Es).
    destruct (update autograd adam_rule (rng k) w2) as [[[]|e] w3] eqn:Eu.
    2:{ exists [c1; c2; c3]. unfold run. cbn [foldl]. rewrite <- H1, <- H2.
        unfold c3, invoke, forget. rewrite Eu. reflexivity. }
    assert (H3 : w3 = invoke autograd adam_rule c3 w2)
      by (unfold c3, invoke, forget; by rewrite Eu).
    destruct d.
    + exists [c1; c2; c3]. unfold run. cbn [foldl]. by rewrite <- H1, <- H2, <- H3.
    + destruct (IH (S k) st' (total + r) env' w3) as [cs Hcs].
      exists ([c1; c2; c3] ++ cs). rewrite Hcs, run_app. f_equal.
      unfold run. cbn [foldl]. by rewrite <- H1, <- H2, <- H3.
Qed.

Lemma episodes_loop_run fuel episodes k rewards env w :
  exists cs,
    (episodes_loop autograd adam_rule Env env_reset env_step validate_args eps rng
       fuel episodes k rewards env w).2 = run autograd adam_rule cs w.
Proof.
  revert k rewards env w.
  induction episodes as [|episode rest IH]; intros k rewards env w.
  - by exists [].
  - cbn [episodes_loop]. destruct (env_reset env) as [st env0].
    destruct (episode_loop_run fuel k st 0 env0 w) as [cs Hcs].
    destruct (episode_loop _ _ _ _ _ _ _ fuel k st 0 env0 w)
      as [[[[total k'] env']|e|] w1];
      simpl in Hcs; subst w1; try (by exists cs).
    destruct (_ =? _)%nat.
    + destruct (polyak_update (run autograd adam_rule cs w)) as [[[]|e] w2] eqn:Ep.
      * destruct (IH k' (rewards ++ [total]) env' w2) as [cs' Hcs'].
        exists (cs ++ PolyakUpdate :: cs'). rewrite Hcs', run_app, run_cons.
        unfold invoke, forget. by rewrite Ep.
      * exists (cs ++ [PolyakUpdate]). rewrite run_app, run_cons.
        unfold invoke, forget. by rewrite Ep.
    + destruct (IH k' (rewards ++ [total]) env' (run autograd adam_rule cs w))
        as [cs' Hcs'].
      exists (cs ++ cs'). by rewrite Hcs', run_app.
Qed.

Lemma main_test_run fuel env w :
  exists cs,
    (main_test autograd adam_rule Env env_reset env_step validate_args eps rng
       fuel env w).2 = run autograd adam_rule cs w.
Proof. unfold main_test. apply episodes_loop_run. Qed.

End TrainingRuns.

